(** * VScript lexer: a shallow embedding of [src/main.cpp]

    The embedded program is the lexical front end of VScript: the types
    [Position], [Keyword], [TokenType], [Token], the keyword table
    [s_Keywords], and the class [Lexer] with its methods [ParseLine] and
    [Expected].

    Conventions of the embedding.
    - [uint32_t] values are integers in [Z]; every increment and decrement
      is written with its wrap-around modulo [2^32] ([wrap32]).
    - A [std::string] is a [string]; [line[i]] is [char_at]: the character
      at [i] below [line.size()], and the terminating null character at
      [i = line.size()], as [std::string::operator[]] guarantees.
    - The mutable state [ParseLine] works on (the members of [Lexer], the
      local [cursor] captured by reference by the lambdas [valid] and
      [currentPos], and [std::cout]) is threaded by a small state monad [M].
      The monad also records, as a ghost trace, the index of every character
      read from the line together with the place in the source that reads it.
    - The outer [while] of [ParseLine] need not terminate, so the loops take
      fuel; running out of fuel is the outcome [OutOfFuel], which still carries
      the state reached so far. *)

From Stdlib Require Import ZArith List String Ascii Bool Lia DecimalString.
From Stdlib Require Import Sorted.
Import ListNotations.

Local Open Scope string_scope.
Local Open Scope Z_scope.
Local Open Scope list_scope.

(** ** Machine integers *)

Definition UINT32_MAX : Z := 4294967295.

(** Reduction of an integer to the range of [uint32_t]. *)
Definition wrap32 (z : Z) : Z := z mod (UINT32_MAX + 1).

(** Decimal rendering of an unsigned integer, as [operator<<] prints it. *)
Definition show_uint32 (z : Z) : string :=
  NilZero.string_of_uint (N.to_uint (Z.to_N z)).

(** ** Data types *)

(** [struct Position]. *)
Record Position : Set := mkPosition
  { Filename : string;
    Column : Z;
    Row : Z }.

(** [operator<<(std::ostream&, const Position&)]:
    [stream << pos.Filename << ':' << pos.Row + 1 << ':' << pos.Column + 1].
    Both sums are computed in [uint32_t]. *)
Definition Position_show (pos : Position) : string :=
  (Filename pos ++ ":" ++ show_uint32 (wrap32 (Row pos + 1))
                ++ ":" ++ show_uint32 (wrap32 (Column pos + 1)))%string.

(** [enum class Keyword]. *)
Module Keyword.
Inductive t : Set := Fn | Return.
End Keyword.

(** [s_Keywords]: the table from spellings to keywords. *)
Definition s_Keywords : list (string * Keyword.t) :=
  [ ("fn", Keyword.Fn); ("return", Keyword.Return) ].

(** [s_Keywords.contains(value)]. *)
Definition s_Keywords_contains (value : string) : bool :=
  existsb (fun kv => String.eqb (fst kv) value) s_Keywords.

(** [enum class TokenType]. *)
Module TokenType.
Inductive t : Set :=
| None | Keyword | Ident | OCurly | CCurly | OParen | CParen | Colon
| Semicolon | Arrow | String | Number | Plus | Minus | Multiply | Divide
| Equals.
End TokenType.

Definition TokenTypeToString (type : TokenType.t) : string :=
  match type with
  | TokenType.Keyword => "Keyword"
  | TokenType.Ident => "Ident"
  | TokenType.OCurly => "OCurly"
  | TokenType.CCurly => "CCurly"
  | TokenType.OParen => "OParen"
  | TokenType.CParen => "CParen"
  | TokenType.Colon => "Colon"
  | TokenType.Semicolon => "Semicolon"
  | TokenType.Arrow => "Arrow"
  | TokenType.String => "String"
  | TokenType.Number => "Number"
  | TokenType.Plus => "Plus"
  | TokenType.Minus => "Minus"
  | TokenType.Multiply => "Multiply"
  | TokenType.Divide => "Divide"
  | TokenType.Equals => "Equals"
  | TokenType.None => "None"
  end.

(** [struct Token]; the member [Type] is spelled [Type_] here. *)
Record Token : Set := mkToken
  { Type_ : TokenType.t;
    Pos : Position;
    Value : string }.

(** ** Character classes of [<cctype>] in the default "C" locale *)

(** The program never calls [setlocale], so the classes are those of the
    "C" locale; bytes above 127 belong to none of them. *)

Definition char_in (lo hi : N) (c : ascii) : bool :=
  (N.leb lo (N_of_ascii c) && N.leb (N_of_ascii c) hi)%bool.

(** [std::isspace]: space, and the controls from tab to carriage return. *)
Definition isspace (c : ascii) : bool :=
  (N.eqb (N_of_ascii c) 32 || char_in 9 13 c)%bool.

(** [std::isdigit]. *)
Definition isdigit (c : ascii) : bool := char_in 48 57 c.

(** [std::isalnum]. *)
Definition isalnum (c : ascii) : bool :=
  (isdigit c || char_in 65 90 c || char_in 97 122 c)%bool.

(** ** The state of a scan *)

(** The places of [ParseLine] that read a character of [line]. *)
Inductive ReadSite : Set :=
| AtFirst            (* char first = line[cursor]                  *)
| AtSkip             (* first = line[++cursor]                     *)
| AtLookahead        (* line[cursor] == '>'                        *)
| AtArrowValue       (* std::string value(line.data() + start, 2)  *)
| AtStringAlnum      (* std::isalnum(line[cursor]), string loop    *)
| AtStringUnderscore (* line[cursor] == '_', string loop           *)
| AtStringClose      (* the test for the closing quote             *)
| AtStringValue      (* value of a String token                    *)
| AtNumberDigit      (* std::isdigit(line[cursor]), number loop    *)
| AtNumberValue      (* value of a Number token                    *)
| AtIdentAlnum       (* std::isalnum(line[cursor]), identifier loop *)
| AtIdentUnderscore  (* line[cursor] == '_', identifier loop       *)
| AtIdentValue.      (* value of a Keyword or Ident token          *)

(** The members of [Lexer] ([m_Tokens], [m_Filename], [m_Row]), the local
    [cursor] of [ParseLine], the characters written to [std::cout], and the
    ghost trace of reads. *)
Record Frame : Type := mkFrame
  { m_Tokens : list Token;
    m_Filename : string;
    m_Row : Z;
    cursor : Z;
    cout : string;
    reads : list (ReadSite * Z) }.

(** [Lexer(const std::string& filename)], on a fresh output stream. *)
Definition Lexer (filename : string) : Frame :=
  mkFrame [] filename 0 0 EmptyString [].

Inductive Outcome (A : Type) : Type :=
| Done (a : A) (f : Frame)
| OutOfFuel (f : Frame).
Arguments Done {A} a f.
Arguments OutOfFuel {A} f.

(** The state reached, whether the computation finished or not. *)
Definition frame_of {A} (o : Outcome A) : Frame :=
  match o with Done _ f => f | OutOfFuel f => f end.

Definition M (A : Type) : Type := Frame -> Outcome A.

Definition ret {A} (a : A) : M A := fun f => Done a f.

Definition bind {A B} (m : M A) (k : A -> M B) : M B :=
  fun f => match m f with
           | Done a f' => k a f'
           | OutOfFuel f' => OutOfFuel f'
           end.

Definition out_of_fuel {A} : M A := fun f => OutOfFuel f.

Declare Scope lexer_scope.
Delimit Scope lexer_scope with lexer.
Notation "x <- m ;; k" := (bind m (fun x => k))
  (at level 61, m at next level, right associativity) : lexer_scope.
Notation "m ;; k" := (bind m (fun _ => k))
  (at level 61, right associativity) : lexer_scope.
Local Open Scope lexer_scope.

Definition get_cursor : M Z := fun f => Done (cursor f) f.

Definition set_cursor (c : Z) : M unit := fun f =>
  Done tt (mkFrame (m_Tokens f) (m_Filename f) (m_Row f) c (cout f) (reads f)).

(** [cursor++] and [cursor--] on a [uint32_t]. *)
Definition cursor_incr : M unit :=
  c <- get_cursor ;; set_cursor (wrap32 (c + 1)).

Definition cursor_decr : M unit :=
  c <- get_cursor ;; set_cursor (wrap32 (c - 1)).

(** [m_Tokens.push_back(token)]. *)
Definition push_back (token : Token) : M unit := fun f =>
  Done tt (mkFrame (m_Tokens f ++ [token]) (m_Filename f) (m_Row f)
                   (cursor f) (cout f) (reads f)).

(** [m_Row++]. *)
Definition row_incr : M unit := fun f =>
  Done tt (mkFrame (m_Tokens f) (m_Filename f) (wrap32 (m_Row f + 1))
                   (cursor f) (cout f) (reads f)).

(** [std::cout << s]. *)
Definition print (s : string) : M unit := fun f =>
  Done tt (mkFrame (m_Tokens f) (m_Filename f) (m_Row f) (cursor f)
                   (cout f ++ s)%string (reads f)).

Definition log_reads (rs : list (ReadSite * Z)) : M unit := fun f =>
  Done tt (mkFrame (m_Tokens f) (m_Filename f) (m_Row f) (cursor f)
                   (cout f) (reads f ++ rs)).

(** [Lexer::Expected]: the position, the expected token type and the
    message, separated by commas, are written to [std::cout]. *)
Definition Expected (type : TokenType.t) (msg : string) (pos : Position)
  : M unit :=
  print (Position_show pos ++ ", Expected " ++ TokenTypeToString type
                           ++ ", " ++ msg)%string.

(** ** [Lexer::ParseLine] *)

(** The double-quote character, code 34. *)
Definition dquote : ascii := ascii_of_N 34.

(** [line[i]]: the character at index [i]; at [i = line.size()] the
    terminating null character.  Beyond that index the C++ read is undefined;
    the embedding returns the null character there, and the trace of reads
    shows whether the program ever reads there. *)
Definition char_at (line : string) (i : Z) : ascii :=
  match String.get (Z.to_nat i) line with
  | Some c => c
  | None => Ascii.zero
  end.

Section ParseLine.

Variable line : string.

(** [line.size()]. *)
Definition size : Z := Z.of_nat (String.length line).

(** A read of [line[i]], recorded in the trace. *)
Definition read (site : ReadSite) (i : Z) : M ascii :=
  log_reads [(site, i)] ;; ret (char_at line i).

(** [std::string(line.data() + start, n)]: the [n] characters from index
    [start] on are read and copied. *)
Definition data_string (site : ReadSite) (start n : Z) : M string :=
  log_reads (map (fun k => (site, start + Z.of_nat k)) (seq 0 (Z.to_nat n))) ;;
  ret (substring (Z.to_nat start) (Z.to_nat n) line).

(** The lambda [valid]: [cursor < line.size()]. *)
Definition valid : M bool :=
  c <- get_cursor ;; ret (c <? size).

(** The lambda [currentPos]: [Position{ m_Filename, cursor, m_Row }]. *)
Definition currentPos : M Position := fun f =>
  Done (mkPosition (m_Filename f) (cursor f) (m_Row f)) f.

(** [while (valid() && std::isalnum(line[cursor]) || line[cursor] == '_')
      cursor++;]
    The condition parses as [(valid() && isalnum(..)) || (.. == '_')] and
    is evaluated left to right with short circuits. *)
Fixpoint while_alnum_or_underscore (sa su : ReadSite) (fuel : nat)
  : M unit :=
  match fuel with
  | O => out_of_fuel
  | S fuel' =>
      v <- valid ;;
      c <- get_cursor ;;
      a <- (if v : bool then ch <- read sa c ;; ret (isalnum ch)
            else ret false) ;;
      go <- (if a : bool then ret true
             else ch <- read su c ;; ret (ch =? "_")%char) ;;
      if go : bool
      then cursor_incr ;; while_alnum_or_underscore sa su fuel'
      else ret tt
  end.

(** [while (valid() && std::isdigit(line[cursor])) cursor++;] *)
Fixpoint while_digit (fuel : nat) : M unit :=
  match fuel with
  | O => out_of_fuel
  | S fuel' =>
      v <- valid ;;
      c <- get_cursor ;;
      go <- (if v : bool then ch <- read AtNumberDigit c ;; ret (isdigit ch)
             else ret false) ;;
      if go : bool
      then cursor_incr ;; while_digit fuel'
      else ret tt
  end.

(** One character as a string: [std::string(&first, 1)]. *)
Definition string1 (first : ascii) : string := String first EmptyString.

(** The chain on the brackets. *)
Definition brackets (first : ascii) (pos : Position) (token : Token)
  : Token :=
  if (first =? "{")%char then mkToken TokenType.OCurly pos (string1 first)
  else if (first =? "}")%char then mkToken TokenType.CCurly pos (string1 first)
  else if (first =? "(")%char then mkToken TokenType.OParen pos (string1 first)
  else if (first =? ")")%char then mkToken TokenType.CParen pos (string1 first)
  else token.

(** The chain on [;] and [:]. *)
Definition separators (first : ascii) (pos : Position) (token : Token)
  : Token :=
  if (first =? ";")%char then mkToken TokenType.Semicolon pos (string1 first)
  else if (first =? ":")%char then mkToken TokenType.Colon pos (string1 first)
  else token.

(** The chain on the operators; [-] looks one character ahead. *)
Definition operators (first : ascii) (pos : Position) (token : Token)
  : M Token :=
  if (first =? "+")%char then ret (mkToken TokenType.Plus pos (string1 first))
  else if (first =? "-")%char then
    start <- get_cursor ;;
    cursor_incr ;;
    c <- get_cursor ;;
    next <- read AtLookahead c ;;
    if (next =? ">")%char then
      value <- data_string AtArrowValue start 2 ;;
      ret (mkToken TokenType.Arrow pos value)
    else
      ret (mkToken TokenType.Minus pos (string1 first))
  else if (first =? "*")%char then
    ret (mkToken TokenType.Multiply pos (string1 first))
  else if (first =? "/")%char then
    ret (mkToken TokenType.Divide pos (string1 first))
  else if (first =? "=")%char then
    ret (mkToken TokenType.Equals pos (string1 first))
  else ret token.

(** The branch on the double quote. *)
Definition string_literal (fuel : nat) (first : ascii) (pos : Position)
  (token : Token) : M Token :=
  if (first =? dquote)%char then
    start <- get_cursor ;;
    while_alnum_or_underscore AtStringAlnum AtStringUnderscore fuel ;;
    c <- get_cursor ;;
    close <- read AtStringClose c ;;
    (if (close =? dquote)%char then ret tt
     else p <- currentPos ;;
          Expected TokenType.String "unterminated string literal" p) ;;
    c <- get_cursor ;;
    value <- data_string AtStringValue start (wrap32 (c - start)) ;;
    cursor_decr ;;
    ret (mkToken TokenType.String pos value)
  else ret token.

(** The branches on digits and on the other alphanumeric characters. *)
Definition number_or_word (fuel : nat) (first : ascii) (pos : Position)
  (token : Token) : M Token :=
  if isdigit first then
    start <- get_cursor ;;
    while_digit fuel ;;
    c <- get_cursor ;;
    value <- data_string AtNumberValue start (wrap32 (c - start)) ;;
    cursor_decr ;;
    ret (mkToken TokenType.Number pos value)
  else if isalnum first then
    start <- get_cursor ;;
    while_alnum_or_underscore AtIdentAlnum AtIdentUnderscore fuel ;;
    c <- get_cursor ;;
    value <- data_string AtIdentValue start (wrap32 (c - start)) ;;
    cursor_decr ;;
    ret (if s_Keywords_contains value
         then mkToken TokenType.Keyword pos value
         else mkToken TokenType.Ident pos value)
  else ret token.

(** The skip of one whitespace character:
    [first = line[++cursor]; pos = currentPos(); token.Pos = pos;]. *)
Definition skip_space (first : ascii) (pos : Position) (token : Token)
  : M (ascii * Position * Token) :=
  if isspace first then
    cursor_incr ;;
    c <- get_cursor ;;
    first' <- read AtSkip c ;;
    pos' <- currentPos ;;
    ret (first', pos', mkToken (Type_ token) pos' (Value token))
  else ret (first, pos, token).

(** The classification of [first]: the four chains of tests, in the order
    of the source. *)
Definition classify (fuel : nat) (first : ascii) (pos : Position)
  (token : Token) : M Token :=
  token <- operators first pos
             (separators first pos (brackets first pos token)) ;;
  token <- string_literal fuel first pos token ;;
  number_or_word fuel first pos token.

(** The body of the outer [while] of [ParseLine]. *)
Definition scan_step (fuel : nat) : M unit :=
  pos <- currentPos ;;
  c <- get_cursor ;;
  first <- read AtFirst c ;;
  fpt <- skip_space first pos (mkToken TokenType.None pos EmptyString) ;;
  token <- classify fuel (fst (fst fpt)) (snd (fst fpt)) (snd fpt) ;;
  push_back token ;;
  cursor_incr.

(** [while (cursor < line.size()) { ... }]. *)
Fixpoint scan_loop (fuel : nat) : M unit :=
  match fuel with
  | O => out_of_fuel
  | S fuel' =>
      v <- valid ;;
      if v : bool then scan_step fuel ;; scan_loop fuel' else ret tt
  end.

(** [void ParseLine(const std::string& line)]. *)
Definition ParseLine (fuel : nat) : M unit :=
  set_cursor 0 ;;
  scan_loop fuel ;;
  row_incr.

End ParseLine.

(** ** The loop of [main] *)

(** [while (std::getline(stream, line)) lexer.ParseLine(line);] over the
    lines of the file, in order. *)
Fixpoint ParseLines (fuel : nat) (lines : list string) : M unit :=
  match lines with
  | [] => ret tt
  | line :: rest => ParseLine line fuel ;; ParseLines fuel rest
  end.

(** ** Vocabulary of the statements *)

(** The state on entry to the loop ([cursor = 0]) and the state on return
    ([m_Row++]). *)
Definition enter (f : Frame) : Frame :=
  mkFrame (m_Tokens f) (m_Filename f) (m_Row f) 0 (cout f) (reads f).

Definition leave (g : Frame) : Frame :=
  mkFrame (m_Tokens g) (m_Filename g) (wrap32 (m_Row g + 1)) (cursor g)
          (cout g) (reads g).

(** The tokens a call appends, whether it returns or not. *)
Definition appended (before after : Frame) : list Token :=
  skipn (List.length (m_Tokens before)) (m_Tokens after).

Definition tok (type : TokenType.t) (file : string) (row col : Z)
  (value : string) : Token :=
  mkToken type (mkPosition file col row) value.

(** The reads a call adds to the trace. *)
Definition new_reads (before after : Frame) : list (ReadSite * Z) :=
  skipn (List.length (reads before)) (reads after).

(** [wp m f Q R]: from [f], [m] either finishes in a state satisfying [Q] or
    runs out of fuel in a state satisfying [R]. *)
Definition wp {A} (m : M A) (f : Frame) (Q : A -> Frame -> Prop)
  (R : Frame -> Prop) : Prop :=
  match m f with
  | Done a f' => Q a f'
  | OutOfFuel f' => R f'
  end.

Section Invariant.

Variable line : string.

(** A token of the line scanned from [f]: it carries the file name and
    the row of [f], and a column no greater than the length of the line. *)
Definition token_ok (f : Frame) (t : Token) : Prop :=
  Filename (Pos t) = m_Filename f /\ Row (Pos t) = m_Row f /\
  0 <= Column (Pos t) <= size line.

(** A read inside the line or at its terminating null character; the
    underscore test of the string loop reads inside the line only. *)
Definition read_ok (r : ReadSite * Z) : Prop :=
  0 <= snd r <= size line /\
  (fst r = AtStringUnderscore -> snd r < size line).

(** [f'] is reached from [f] by a safe piece of the scan: file name, row
    counter and output are untouched, tokens are only appended and are
    well positioned, and every read was within bounds. *)
Record Safe (f f' : Frame) : Prop := mkSafe
  { safe_file : m_Filename f' = m_Filename f;
    safe_row : m_Row f' = m_Row f;
    safe_cout : cout f' = cout f;
    safe_tokens : exists new,
        m_Tokens f' = m_Tokens f ++ new /\ Forall (token_ok f) new;
    safe_reads : exists rs,
        reads f' = reads f ++ rs /\ Forall read_ok rs }.

End Invariant.

(** [Ext f f']: [f'] has the file name and row counter of [f], and its
    tokens are those of [f] followed by new ones.  It holds of every piece
    of the scan, on lines of any length. *)
Definition Ext (f f' : Frame) : Prop :=
  m_Filename f' = m_Filename f /\ m_Row f' = m_Row f /\
  exists new, m_Tokens f' = m_Tokens f ++ new.

(** A computation that only appends tokens, whether it finishes or not. *)
Definition appends {A} (m : M A) : Prop :=
  forall f, Ext f (frame_of (m f)).

(** The tests of [ParseLine] on [first] other than [std::isspace]: the
    brackets, the separators, the operators, the double quote, the digits
    and the alphanumeric characters. *)
Definition matches_rule (c : ascii) : bool :=
  existsb (Ascii.eqb c)
          [ "{"; "}"; "("; ")"; ";"; ":"; "+"; "-"; "*"; "/"; "=";
            dquote ]%char
  || isdigit c || isalnum c.

(** The index of the character that the step starting in [f] classifies:
    the cursor, or the index behind it when the cursor is on whitespace. *)
Definition classified_index (line : string) (f : Frame) : Z :=
  if isspace (char_at line (cursor f)) then cursor f + 1 else cursor f.

(** Every character of the line is whitespace. *)
Definition all_space (line : string) : bool :=
  forallb isspace (list_ascii_of_string line).

(** The columns [c + 1], [c + 3], ... : [k] of them. *)
Fixpoint odd_columns (c : Z) (k : nat) : list Z :=
  match k with
  | O => []
  | S k' => (c + 1) :: odd_columns (c + 2) k'
  end.


(** The line that consists of one double quote. *)
Definition lone_quote : string := String dquote EmptyString.

(** The line of a balanced literal: the five letters of [hello] between two
    double quotes. *)
Definition quoted_hello : string :=
  String dquote ("hello" ++ String dquote EmptyString)%string.

(** The line of an unterminated literal: a double quote and [hello]. *)
Definition unterminated_hello : string := String dquote "hello".

(** The single-character punctuation and operators, with their types. *)
Definition punctuation : list (ascii * TokenType.t) :=
  [ ("{"%char, TokenType.OCurly); ("}"%char, TokenType.CCurly);
    ("("%char, TokenType.OParen); (")"%char, TokenType.CParen);
    (";"%char, TokenType.Semicolon); (":"%char, TokenType.Colon);
    ("+"%char, TokenType.Plus); ("*"%char, TokenType.Multiply);
    ("/"%char, TokenType.Divide); ("="%char, TokenType.Equals) ].

(** ** Vocabulary of the lexemes *)

(** The index of the character that a step starting at cursor [c]
    classifies. *)
Definition classified_at (line : string) (c : Z) : Z :=
  if isspace (char_at line c) then c + 1 else c.

(** The test of the string and identifier loops on one character. *)
Definition is_word_char (c : ascii) : bool :=
  isalnum c || (c =? "_")%char.

(** [v] is the run of characters satisfying [P] that starts at index [c] of
    the line: it is not empty, it is read off the line, and the character
    behind it does not satisfy [P]. *)
Definition run_ok (P : ascii -> bool) (line : string) (c : Z) (v : string)
  : bool :=
  (substring (Z.to_nat c) (String.length v) line =? v)%string
  && forallb P (list_ascii_of_string v)
  && negb (P (char_at line (c + Z.of_nat (String.length v))))
  && (0 <? String.length v)%nat.

(** The type and the value of a token agree with the characters of the line
    at its column. *)
Definition lexeme_ok (line : string) (t : Token) : bool :=
  let c := Column (Pos t) in
  let first := char_at line c in
  let one (ch : ascii) :=
    (first =? ch)%char && (Value t =? string1 ch)%string in
  match Type_ t with
  | TokenType.None =>
      negb (matches_rule first) && (Value t =? EmptyString)%string
  | TokenType.OCurly => one "{"%char
  | TokenType.CCurly => one "}"%char
  | TokenType.OParen => one "("%char
  | TokenType.CParen => one ")"%char
  | TokenType.Semicolon => one ";"%char
  | TokenType.Colon => one ":"%char
  | TokenType.Plus => one "+"%char
  | TokenType.Multiply => one "*"%char
  | TokenType.Divide => one "/"%char
  | TokenType.Equals => one "="%char
  | TokenType.Arrow =>
      (first =? "-")%char && (char_at line (c + 1) =? ">")%char
      && (Value t =? "->")%string
  | TokenType.Minus =>
      (first =? "-")%char && negb (char_at line (c + 1) =? ">")%char
      && (Value t =? "-")%string
  | TokenType.String =>
      (first =? dquote)%char && (Value t =? EmptyString)%string
  | TokenType.Number => run_ok isdigit line c (Value t)
  | TokenType.Keyword =>
      isalnum first && negb (isdigit first)
      && run_ok is_word_char line c (Value t)
      && s_Keywords_contains (Value t)
  | TokenType.Ident =>
      isalnum first && negb (isdigit first)
      && run_ok is_word_char line c (Value t)
      && negb (s_Keywords_contains (Value t))
  end.

(** The number of characters by which the step that appends [t] moves the
    cursor past the column of [t]. *)
Definition width (t : Token) : Z :=
  match Type_ t with
  | TokenType.String => 0
  | TokenType.Arrow | TokenType.Minus => 2
  | TokenType.Number | TokenType.Ident | TokenType.Keyword =>
      Z.of_nat (String.length (Value t))
  | _ => 1
  end.

(** [lexemes line file row c ts c']: the tokens [ts] are those of
    consecutive steps on [line], the first from cursor [c], each from where
    the one before left the cursor, the last leaving it at [c']. *)
Inductive lexemes (line file : string) (row : Z)
  : Z -> list Token -> Z -> Prop :=
| lexemes_nil c : lexemes line file row c [] c
| lexemes_cons c t ts c' :
    0 <= c < size line ->
    Pos t = mkPosition file (classified_at line c) row ->
    lexeme_ok line t = true ->
    lexemes line file row (Column (Pos t) + width t) ts c' ->
    lexemes line file row c (t :: ts) c'.

(** The columns of a list of tokens. *)
Definition columns (ts : list Token) : list Z :=
  map (fun t => Column (Pos t)) ts.

(** ** Vocabulary of the independence from the state *)

(** [f] with tokens, output and reads put in front of its own. *)
Definition rebase (toks : list Token) (out : string)
  (rs : list (ReadSite * Z)) (f : Frame) : Frame :=
  mkFrame (toks ++ m_Tokens f) (m_Filename f) (m_Row f) (cursor f)
          (out ++ cout f)%string (rs ++ reads f).

Definition map_frame {A} (g : Frame -> Frame) (o : Outcome A) : Outcome A :=
  match o with
  | Done a f => Done a (g f)
  | OutOfFuel f => OutOfFuel (g f)
  end.

(** A computation that neither inspects nor changes what the state already
    holds of tokens, output and reads. *)
Definition stable {A} (m : M A) : Prop :=
  forall toks out rs f,
    m (rebase toks out rs f) = map_frame (rebase toks out rs) (m f).

(** A lexer of [file] at [row] with nothing scanned or printed. *)
Definition fresh (file : string) (row : Z) : Frame :=
  mkFrame [] file row 0 EmptyString [].

(** The tokens of one line, scanned alone at [row]. *)
Definition line_tokens (fuel : nat) (file : string) (row : Z)
  (line : string) : list Token :=
  m_Tokens (frame_of (ParseLine line fuel (fresh file row))).

(** The tokens of the lines, each scanned alone, at consecutive rows. *)
Fixpoint tokens_from (fuel : nat) (file : string) (row : Z)
  (lines : list string) : list Token :=
  match lines with
  | [] => []
  | line :: rest =>
      line_tokens fuel file row line ++ tokens_from fuel file (row + 1) rest
  end.

(** No character of the line is a double quote. *)
Definition no_quote (line : string) : bool :=
  forallb (fun c => negb (c =? dquote)%char) (list_ascii_of_string line).

(** Every character of the line is a digit. *)
Definition all_digits (line : string) : bool :=
  forallb isdigit (list_ascii_of_string line).

(** The line is one word: a letter followed by letters, digits and
    underscores. *)
Definition is_word (line : string) : bool :=
  isalnum (char_at line 0) && negb (isdigit (char_at line 0))
  && forallb is_word_char (list_ascii_of_string line).

(** The order of the source: by row, then by column. *)
Definition position_le (p q : Position) : Prop :=
  Row p < Row q \/ (Row p = Row q /\ Column p <= Column q).

(** The column is an index into the line, or it is the length of a line
    that ends with a whitespace character. *)
Definition column_in (line : string) (col : Z) : Prop :=
  0 <= col < size line \/
  (col = size line /\ 0 < size line /\
   isspace (char_at line (size line - 1)) = true).

(** A lexer of [main.vs] that has scanned one line, [fn]. *)
Definition after_fn : Frame :=
  mkFrame [tok TokenType.Keyword "main.vs" 0 0 "fn"] "main.vs" 1 0
          EmptyString [].

(** ** Reasoning about computations in [M] *)

Lemma wp_bind {A B} (m : M A) (k : A -> M B) f Q R :
  wp m f (fun a f' => wp (k a) f' Q R) R -> wp (bind m k) f Q R.
Proof. unfold wp, bind. destruct (m f); auto. Qed.

Lemma wp_mono {A} (m : M A) f (Q Q' : A -> Frame -> Prop)
  (R R' : Frame -> Prop) :
  wp m f Q R ->
  (forall a f', Q a f' -> Q' a f') ->
  (forall f', R f' -> R' f') ->
  wp m f Q' R'.
Proof. unfold wp. destruct (m f); auto. Qed.

Lemma wp_frame_of {A} (m : M A) f (P : Frame -> Prop) :
  wp m f (fun _ => P) P -> P (frame_of (m f)).
Proof. unfold wp. destruct (m f); auto. Qed.

(** ** Integer and character facts *)

Lemma wrap32_small z : 0 <= z <= UINT32_MAX -> wrap32 z = z.
Proof. intros H. unfold wrap32, UINT32_MAX in *. apply Z.mod_small. lia. Qed.

Lemma wrap32_decr_incr z :
  0 <= z <= UINT32_MAX -> wrap32 (wrap32 (z - 1) + 1) = z.
Proof.
  intros H. unfold wrap32, UINT32_MAX in *.
  rewrite Zplus_mod_idemp_l. replace (z - 1 + 1) with z by lia.
  apply Z.mod_small. lia.
Qed.

Lemma get_none_iff (s : string) (n : nat) :
  String.get n s = None <-> (String.length s <= n)%nat.
Proof.
  revert n. induction s as [|a s IH]; intros n; simpl.
  - split; [lia | reflexivity].
  - destruct n as [|n]; simpl.
    + split; [discriminate | lia].
    + rewrite IH. lia.
Qed.

Lemma char_at_end line i : size line <= i -> char_at line i = Ascii.zero.
Proof.
  intros H. unfold char_at, size in *.
  destruct (String.get (Z.to_nat i) line) eqn:E; [|reflexivity].
  assert (String.get (Z.to_nat i) line = None) as E'
      by (apply get_none_iff; lia).
  congruence.
Qed.

Lemma char_at_nonzero line i :
  0 <= i -> char_at line i <> Ascii.zero -> i < size line.
Proof.
  intros Hi H. destruct (Z_lt_le_dec i (size line)) as [|Hge]; [assumption|].
  now apply char_at_end in Hge.
Qed.

Lemma substring_zero (s : string) : forall n, substring n 0 s = EmptyString.
Proof.
  induction s as [|a s IH]; intros [|n]; simpl; auto.
Qed.

(** ** Branches that are not taken, and the branch on the double quote *)

Section Branches.

Variable line : string.

Lemma string_literal_other fuel first pos token :
  (first =? dquote)%char = false ->
  string_literal line fuel first pos token = ret token.
Proof. unfold string_literal. intros ->. reflexivity. Qed.

Lemma number_or_word_other fuel first pos token :
  isalnum first = false ->
  number_or_word line fuel first pos token = ret token.
Proof.
  unfold number_or_word, isalnum. intros H.
  apply orb_false_iff in H. destruct H as [H Hl].
  apply orb_false_iff in H. destruct H as [Hd Hu].
  rewrite Hd, Hu, Hl. reflexivity.
Qed.

Lemma operators_other first pos token :
  (first =? "-")%char = false ->
  exists t, operators line first pos token = ret t /\
            (Pos token = pos -> Pos t = pos).
Proof.
  unfold operators. intros ->.
  destruct (first =? "+")%char; [eexists; split; [reflexivity | auto]|].
  destruct (first =? "*")%char; [eexists; split; [reflexivity | auto]|].
  destruct (first =? "/")%char; [eexists; split; [reflexivity | auto]|].
  destruct (first =? "=")%char; eexists; split; try reflexivity; auto.
Qed.

Lemma brackets_Pos first pos token :
  Pos token = pos -> Pos (brackets first pos token) = pos.
Proof.
  unfold brackets. intros H.
  repeat match goal with |- context [if ?b then _ else _] => destruct b end;
    auto.
Qed.

Lemma separators_Pos first pos token :
  Pos token = pos -> Pos (separators first pos token) = pos.
Proof.
  unfold separators. intros H.
  repeat match goal with |- context [if ?b then _ else _] => destruct b end;
    auto.
Qed.

(** On a double quote the loop of the string branch stops at once: the
    quote is neither alphanumeric nor an underscore. *)
Lemma while_stuck sa su fuel f :
  isalnum (char_at line (cursor f)) = false ->
  (char_at line (cursor f) =? "_")%char = false ->
  while_alnum_or_underscore line sa su (S fuel) f =
  Done tt (mkFrame (m_Tokens f) (m_Filename f) (m_Row f) (cursor f) (cout f)
             (reads f ++ if cursor f <? size line
                         then [(sa, cursor f); (su, cursor f)]
                         else [(su, cursor f)])).
Proof.
  intros Ha Hu. cbn [while_alnum_or_underscore].
  unfold bind, valid, get_cursor, read, log_reads, ret. simpl.
  destruct (cursor f <? size line); simpl; rewrite ?Ha, ?Hu; simpl;
    rewrite <- ?app_assoc; reflexivity.
Qed.

(** The string branch, entered on a double quote at the cursor: the body
    it scans is empty, the test for the closing quote finds the opening
    one, and nothing is printed. *)
Lemma string_literal_quote fuel pos token f :
  char_at line (cursor f) = dquote ->
  exists rs,
    string_literal line (S fuel) dquote pos token f =
    Done (mkToken TokenType.String pos EmptyString)
         (mkFrame (m_Tokens f) (m_Filename f) (m_Row f)
                  (wrap32 (cursor f - 1)) (cout f) (reads f ++ rs)) /\
    Forall (fun r => snd r = cursor f) rs.
Proof.
  intros Hq. unfold string_literal.
  change (dquote =? dquote)%char with true. cbv iota.
  unfold bind at 1. unfold get_cursor at 1.
  unfold bind at 1. rewrite while_stuck by (rewrite Hq; reflexivity).
  unfold bind, get_cursor, read, log_reads, ret, data_string, cursor_decr,
    set_cursor, currentPos. simpl.
  rewrite Hq. change (dquote =? dquote)%char with true. simpl.
  rewrite Z.sub_diag. change (Z.to_nat (wrap32 0)) with 0%nat. simpl.
  rewrite substring_zero, app_nil_r, <- app_assoc.
  eexists. split; [reflexivity|].
  destruct (cursor f <? size line); repeat constructor.
Qed.

End Branches.

(** ** The safety invariant of a scan *)

Section Safety.

Variable line : string.

Lemma Safe_refl f : Safe line f f.
Proof.
  split; try reflexivity;
    exists []; rewrite app_nil_r; split; auto.
Qed.

Lemma Safe_trans f g h : Safe line f g -> Safe line g h -> Safe line f h.
Proof.
  intros [F1 R1 C1 [t1 [T1 O1]] [r1 [D1 K1]]]
         [F2 R2 C2 [t2 [T2 O2]] [r2 [D2 K2]]].
  split; try congruence.
  - exists (t1 ++ t2). split.
    + rewrite T2, T1, app_assoc. reflexivity.
    + apply Forall_app. split; [assumption|].
      eapply Forall_impl; [|exact O2].
      unfold token_ok. intros t. rewrite F1, R1. auto.
  - exists (r1 ++ r2). split.
    + rewrite D2, D1, app_assoc. reflexivity.
    + apply Forall_app. auto.
Qed.

Lemma Safe_cursor f c :
  Safe line f
       (mkFrame (m_Tokens f) (m_Filename f) (m_Row f) c (cout f) (reads f)).
Proof.
  split; try reflexivity; exists []; simpl; rewrite app_nil_r; auto.
Qed.

Lemma Safe_reads f rs :
  Forall (read_ok line) rs ->
  Safe line f (mkFrame (m_Tokens f) (m_Filename f) (m_Row f) (cursor f) (cout f)
                  (reads f ++ rs)).
Proof.
  intros H. split; try reflexivity; simpl.
  - exists []. rewrite app_nil_r; auto.
  - exists rs. auto.
Qed.

Lemma Safe_push f t :
  token_ok line f t ->
  Safe line f (mkFrame (m_Tokens f ++ [t]) (m_Filename f) (m_Row f) (cursor f)
                  (cout f) (reads f)).
Proof.
  intros H. split; try reflexivity; simpl.
  - exists [t]. auto.
  - exists []. rewrite app_nil_r; auto.
Qed.

Lemma Safe_intro f f' new rs :
  m_Filename f' = m_Filename f -> m_Row f' = m_Row f -> cout f' = cout f ->
  m_Tokens f' = m_Tokens f ++ new -> Forall (token_ok line f) new ->
  reads f' = reads f ++ rs -> Forall (read_ok line) rs ->
  Safe line f f'.
Proof. intros. split; eauto. Qed.

Lemma read_ok_intro site i :
  0 <= i <= size line -> site <> AtStringUnderscore -> read_ok line (site, i).
Proof. intros H Hs. split; [exact H | intros E; simpl in E; contradiction]. Qed.

(** Specifications of the primitives, as [wp] rules. *)

Lemma wp_ret {A} (a : A) f (Q : A -> Frame -> Prop) R :
  Q a f -> wp (ret a) f Q R.
Proof. auto. Qed.

Lemma wp_get_cursor f (Q : Z -> Frame -> Prop) R :
  Q (cursor f) f -> wp get_cursor f Q R.
Proof. auto. Qed.

Lemma wp_valid f (Q : bool -> Frame -> Prop) R :
  Q (cursor f <? size line) f -> wp (valid line) f Q R.
Proof. auto. Qed.

Lemma wp_currentPos f (Q : Position -> Frame -> Prop) R :
  Q (mkPosition (m_Filename f) (cursor f) (m_Row f)) f ->
  wp currentPos f Q R.
Proof. auto. Qed.

Lemma wp_read site i f (Q : ascii -> Frame -> Prop) R :
  Q (char_at line i)
    (mkFrame (m_Tokens f) (m_Filename f) (m_Row f) (cursor f) (cout f)
             (reads f ++ [(site, i)])) ->
  wp (read line site i) f Q R.
Proof. auto. Qed.

Lemma wp_cursor_incr f (Q : unit -> Frame -> Prop) R :
  Q tt (mkFrame (m_Tokens f) (m_Filename f) (m_Row f)
                (wrap32 (cursor f + 1)) (cout f) (reads f)) ->
  wp cursor_incr f Q R.
Proof. auto. Qed.

Lemma wp_cursor_decr f (Q : unit -> Frame -> Prop) R :
  Q tt (mkFrame (m_Tokens f) (m_Filename f) (m_Row f)
                (wrap32 (cursor f - 1)) (cout f) (reads f)) ->
  wp cursor_decr f Q R.
Proof. auto. Qed.

Lemma wp_push_back t f (Q : unit -> Frame -> Prop) R :
  Q tt (mkFrame (m_Tokens f ++ [t]) (m_Filename f) (m_Row f) (cursor f)
                (cout f) (reads f)) ->
  wp (push_back t) f Q R.
Proof. auto. Qed.

Lemma wp_data_string site start n f (Q : string -> Frame -> Prop) R :
  Q (substring (Z.to_nat start) (Z.to_nat n) line)
    (mkFrame (m_Tokens f) (m_Filename f) (m_Row f) (cursor f) (cout f)
             (reads f ++ map (fun k => (site, start + Z.of_nat k))
                             (seq 0 (Z.to_nat n)))) ->
  wp (data_string line site start n) f Q R.
Proof. auto. Qed.

Lemma data_reads_ok site start n :
  site <> AtStringUnderscore ->
  0 <= start -> start + n <= size line ->
  Forall (read_ok line) (map (fun k => (site, start + Z.of_nat k))
                      (seq 0 (Z.to_nat n))).
Proof.
  intros Hs H0 H1. apply Forall_forall. intros r Hr.
  apply in_map_iff in Hr. destruct Hr as [k [<- Hk]].
  apply in_seq in Hk. apply read_ok_intro; [lia | assumption].
Qed.

Ltac reads_ok :=
  repeat (apply Forall_cons;
          [apply read_ok_intro;
           [simpl; lia | first [assumption | discriminate]] |]);
  apply Forall_nil.

Hypothesis Hsize : size line < UINT32_MAX.

Lemma size_nonneg : 0 <= size line.
Proof. unfold size. lia. Qed.

(** The loop of the string and identifier branches: it stops no later
    than at the terminating null character. *)
Lemma while_alnum_or_underscore_wp sa su fuel :
  sa <> AtStringUnderscore -> su <> AtStringUnderscore ->
  forall f,
  0 <= cursor f <= size line ->
  wp (while_alnum_or_underscore line sa su fuel) f
     (fun _ f' => Safe line f f' /\ m_Tokens f' = m_Tokens f /\
                  cursor f <= cursor f' <= size line)
     (Safe line f).
Proof.
  intros Hsa Hsu. induction fuel as [|fuel IH]; intros f Hc.
  - apply Safe_refl.
  - assert (Hgo : forall g,
               Safe line f g -> m_Tokens g = m_Tokens f ->
               cursor g = cursor f -> cursor f < size line ->
               wp (cursor_incr ;; while_alnum_or_underscore line sa su fuel)
                  g
                  (fun _ f' => Safe line f f' /\ m_Tokens f' = m_Tokens f /\
                               cursor f <= cursor f' <= size line)
                  (Safe line f)).
    { intros g Hs Ht Hg Hlt. apply wp_bind, wp_cursor_incr.
      rewrite Hg, wrap32_small by lia.
      eapply wp_mono; [apply IH; simpl; lia | |]; simpl.
      - intros _ f' [S' [T' C']]. simpl in *.
        split; [|split; [congruence | lia]].
        eapply Safe_trans; [|exact S'].
        eapply Safe_trans; [exact Hs | apply Safe_cursor].
      - intros f' S'. eapply Safe_trans; [|exact S'].
        eapply Safe_trans; [exact Hs | apply Safe_cursor]. }
    cbn [while_alnum_or_underscore].
    apply wp_bind, wp_valid, wp_bind, wp_get_cursor.
    destruct (cursor f <? size line) eqn:Ev.
    + apply Z.ltb_lt in Ev.
      apply wp_bind, wp_bind, wp_read, wp_ret.
      assert (S1 : Safe line f (mkFrame (m_Tokens f) (m_Filename f) (m_Row f)
                             (cursor f) (cout f)
                             (reads f ++ [(sa, cursor f)]))).
      { apply Safe_reads. reads_ok. }
      destruct (isalnum (char_at line (cursor f))).
      * apply wp_bind, wp_ret. apply Hgo; auto.
      * apply wp_bind, wp_bind, wp_read, wp_ret.
        set (g := mkFrame _ _ _ _ _ (_ ++ [(su, _)])).
        assert (S2 : Safe line f g).
        { eapply Safe_trans; [exact S1|]. subst g.
          apply (Safe_reads (mkFrame _ _ _ _ _ _)).
          reads_ok. }
        destruct (char_at line (cursor f) =? "_")%char.
        -- apply Hgo; auto.
        -- apply wp_ret. split; [exact S2 | simpl; split; [reflexivity | lia]].
    + apply Z.ltb_ge in Ev.
      apply wp_bind, wp_ret, wp_bind, wp_bind, wp_read, wp_ret.
      rewrite char_at_end by assumption.
      apply wp_ret. split; [|simpl; split; [reflexivity | lia]].
      apply Safe_reads. reads_ok.
Qed.

(** The loop of the number branch. *)
Lemma while_digit_wp fuel : forall f,
  0 <= cursor f <= size line ->
  wp (while_digit line fuel) f
     (fun _ f' => Safe line f f' /\ m_Tokens f' = m_Tokens f /\
                  cursor f <= cursor f' <= size line)
     (Safe line f).
Proof.
  induction fuel as [|fuel IH]; intros f Hc.
  - apply Safe_refl.
  - cbn [while_digit].
    apply wp_bind, wp_valid, wp_bind, wp_get_cursor.
    destruct (cursor f <? size line) eqn:Ev.
    + apply Z.ltb_lt in Ev.
      apply wp_bind, wp_bind, wp_read, wp_ret.
      assert (S1 : Safe line f (mkFrame (m_Tokens f) (m_Filename f) (m_Row f)
                             (cursor f) (cout f)
                             (reads f ++ [(AtNumberDigit, cursor f)]))).
      { apply Safe_reads. reads_ok. }
      destruct (isdigit (char_at line (cursor f))).
      * apply wp_bind, wp_cursor_incr. simpl.
        rewrite wrap32_small by lia.
        eapply wp_mono; [apply IH; simpl; lia | |]; simpl.
        -- intros _ f' [S' [T' C']]. simpl in *.
           split; [|split; [congruence | lia]].
           eapply Safe_trans; [|exact S'].
           eapply Safe_trans; [exact S1 | apply (Safe_cursor (mkFrame _ _ _ _ _ _))].
        -- intros f' S'. eapply Safe_trans; [|exact S'].
           eapply Safe_trans; [exact S1 | apply (Safe_cursor (mkFrame _ _ _ _ _ _))].
      * apply wp_ret. split; [exact S1 | simpl; split; [reflexivity | lia]].
    + apply Z.ltb_ge in Ev.
      apply wp_bind, wp_ret, wp_ret.
      split; [apply Safe_refl | split; [reflexivity | lia]].
Qed.

(** The branch on [-]: one character of lookahead, read at an index no
    greater than the length of the line. *)
Lemma operators_minus_wp pos token f :
  0 <= cursor f -> char_at line (cursor f) = "-"%char ->
  wp (operators line "-" pos token) f
     (fun t f' => Safe line f f' /\ m_Tokens f' = m_Tokens f /\ Pos t = pos /\
                  cursor f' = cursor f + 1)
     (Safe line f).
Proof.
  intros H0 Hm.
  assert (Hlt : cursor f < size line)
    by (apply char_at_nonzero; [assumption | rewrite Hm; discriminate]).
  unfold operators. cbv iota beta.
  change ("-" =? "+")%char with false. change ("-" =? "-")%char with true.
  cbv iota.
  apply wp_bind, wp_get_cursor, wp_bind, wp_cursor_incr, wp_bind,
    wp_get_cursor, wp_bind, wp_read. simpl.
  rewrite wrap32_small by lia.
  set (g := mkFrame _ _ _ _ _ _).
  assert (Sg : Safe line f g).
  { eapply Safe_trans; [apply (Safe_cursor f (cursor f + 1))|].
    apply (Safe_reads (mkFrame _ _ _ _ _ _)).
    reads_ok. }
  destruct (char_at line (cursor f + 1) =? ">")%char eqn:Ea.
  - assert (cursor f + 1 < size line).
    { apply char_at_nonzero; [lia|]. apply Ascii.eqb_eq in Ea.
      rewrite Ea. discriminate. }
    apply wp_bind, wp_data_string, wp_ret.
    split; [|simpl; auto].
    eapply Safe_trans; [exact Sg|].
    apply Safe_reads, data_reads_ok; [discriminate | lia | lia].
  - apply wp_ret. split; [exact Sg | simpl; auto].
Qed.

(** The branches on digits and identifiers leave the cursor on the last
    character of the lexeme, so that the increment that ends the step puts
    it just behind. *)
Lemma number_or_word_wp fuel first pos token f :
  0 <= cursor f <= size line -> Pos token = pos ->
  wp (number_or_word line fuel first pos token) f
     (fun t f' => Safe line f f' /\ m_Tokens f' = m_Tokens f /\ Pos t = pos /\
                  cursor f <= wrap32 (cursor f' + 1) <= size line + 1)
     (Safe line f).
Proof.
  intros Hc Hp. unfold number_or_word.
  assert (Hend : forall site g (k : string -> Token),
             site <> AtStringUnderscore ->
             Safe line f g -> m_Tokens g = m_Tokens f ->
             cursor f <= cursor g <= size line ->
             (forall v, Pos (k v) = pos) ->
             wp (c <- get_cursor ;;
                 value <- data_string line site (cursor f)
                            (wrap32 (c - cursor f)) ;;
                 cursor_decr ;; ret (k value)) g
                (fun t f' => Safe line f f' /\ m_Tokens f' = m_Tokens f /\
                             Pos t = pos /\
                             cursor f <= wrap32 (cursor f' + 1)
                                      <= size line + 1)
                (Safe line f)).
  { intros site g k Hsite Sg Tg Cg Hk.
    apply wp_bind, wp_get_cursor, wp_bind, wp_data_string, wp_bind,
      wp_cursor_decr, wp_ret. simpl.
    rewrite wrap32_decr_incr by lia.
    split; [|split; [assumption | split; [apply Hk | lia]]].
    eapply Safe_trans; [exact Sg|].
    eapply (Safe_intro g _ []); simpl; try reflexivity.
    + rewrite app_nil_r. reflexivity.
    + constructor.
    + apply data_reads_ok; [assumption | lia |].
      rewrite wrap32_small by lia. lia. }
  destruct (isdigit first).
  - apply wp_bind, wp_get_cursor, wp_bind.
    eapply wp_mono; [apply while_digit_wp; assumption | | auto].
    intros _ g [Sg [Tg Cg]].
    apply (Hend AtNumberValue g
             (fun v => mkToken TokenType.Number pos v)); auto.
    discriminate.
  - destruct (isalnum first).
    + apply wp_bind, wp_get_cursor, wp_bind.
      eapply wp_mono;
        [apply while_alnum_or_underscore_wp;
         [discriminate | discriminate | assumption] | | auto].
      intros _ g [Sg [Tg Cg]].
      apply (Hend AtIdentValue g
               (fun v => if s_Keywords_contains v
                         then mkToken TokenType.Keyword pos v
                         else mkToken TokenType.Ident pos v)); auto.
      { discriminate. }
      intros v. destruct (s_Keywords_contains v); reflexivity.
    + apply wp_ret.
      split; [apply Safe_refl | split; [reflexivity | split; [assumption|]]].
      rewrite wrap32_small by lia. lia.
Qed.

(** The classification of the character under the cursor. *)
Lemma classify_wp fuel first pos token f :
  0 <= cursor f <= size line ->
  first = char_at line (cursor f) -> Pos token = pos ->
  wp (classify line fuel first pos token) f
     (fun t f' => Safe line f f' /\ m_Tokens f' = m_Tokens f /\ Pos t = pos /\
                  cursor f <= wrap32 (cursor f' + 1) <= size line + 1)
     (Safe line f).
Proof.
  intros Hc Hf Hp. unfold classify.
  assert (Hp1 : Pos (separators first pos (brackets first pos token)) = pos)
    by (apply separators_Pos, brackets_Pos, Hp).
  revert Hp1. generalize (separators first pos (brackets first pos token)).
  intros token1 Hp1.
  destruct (first =? dquote)%char eqn:Eq.
  - apply Ascii.eqb_eq in Eq. rewrite Eq in *. clear Eq first.
    destruct (operators_other line dquote pos token1 eq_refl)
      as [t [-> Ht]].
    apply wp_bind, wp_ret, wp_bind.
    destruct fuel as [|fuel].
    + apply Safe_refl.
    + destruct (string_literal_quote line fuel pos t f (eq_sym Hf))
        as [rs [E Hrs]].
      unfold wp at 1. rewrite E.
      rewrite number_or_word_other by reflexivity.
      apply wp_ret. simpl. rewrite wrap32_decr_incr by lia.
      split; [|split; [reflexivity | split; [reflexivity | lia]]].
      apply (Safe_intro f _ [] rs); simpl; try reflexivity.
      * rewrite app_nil_r. reflexivity.
      * constructor.
      * eapply Forall_impl; [|exact Hrs].
        assert (cursor f < size line)
          by (apply char_at_nonzero; [lia | rewrite <- Hf; discriminate]).
        intros r Hr. unfold read_ok. rewrite Hr. lia.
  - destruct (first =? "-")%char eqn:Em.
    + apply Ascii.eqb_eq in Em. rewrite Em in *. clear Em Eq first.
      apply wp_bind.
      eapply wp_mono;
        [apply operators_minus_wp; [lia | congruence] | | auto].
      intros t g [Sg [Tg [Pg Cg]]].
      rewrite string_literal_other by reflexivity.
      apply wp_bind, wp_ret.
      rewrite number_or_word_other by reflexivity.
      apply wp_ret.
      assert (cursor f < size line)
        by (apply char_at_nonzero; [lia | rewrite <- Hf; discriminate]).
      rewrite Cg, wrap32_small by lia.
      split; [assumption | split; [assumption | split; [assumption | lia]]].
    + destruct (operators_other line first pos token1 Em) as [t [-> Ht]].
      apply wp_bind, wp_ret.
      rewrite string_literal_other by assumption.
      apply wp_bind, wp_ret.
      apply number_or_word_wp; auto.
Qed.

(** One step of the scan keeps the invariant and leaves the cursor no
    further than one past the terminating null character. *)
Lemma scan_step_wp fuel f :
  0 <= cursor f < size line ->
  wp (scan_step line fuel) f
     (fun _ f' => Safe line f f' /\ cursor f <= cursor f' <= size line + 1)
     (Safe line f).
Proof.
  intros Hc. unfold scan_step.
  apply wp_bind, wp_currentPos, wp_bind, wp_get_cursor, wp_bind, wp_read,
    wp_bind.
  set (g := mkFrame _ _ _ _ _ _).
  assert (Sg : Safe line f g).
  { apply Safe_reads. reads_ok. }
  assert (Hrest : forall h first pos token,
             Safe line f h -> m_Tokens h = m_Tokens f ->
             cursor f <= cursor h <= size line ->
             first = char_at line (cursor h) ->
             pos = mkPosition (m_Filename f) (cursor h) (m_Row f) ->
             Pos token = pos ->
             wp (token <- classify line fuel first pos token ;;
                 push_back token ;; cursor_incr) h
                (fun _ f' => Safe line f f' /\
                             cursor f <= cursor f' <= size line + 1)
                (Safe line f)).
  { intros h first pos token Sh Th Ch Hf Hpos Hp.
    apply wp_bind.
    eapply wp_mono; [apply classify_wp; eauto; lia | |].
    - intros t k [Sk [Tk [Pk Ck]]].
      apply wp_bind, wp_push_back, wp_cursor_incr. simpl.
      split; [|lia].
      eapply Safe_trans; [exact Sh|].
      eapply Safe_trans; [exact Sk|].
      apply (Safe_intro k _ [t] []); simpl; try reflexivity.
      + repeat constructor; rewrite Pk, Hpos; simpl.
        * destruct Sh, Sk. congruence.
        * destruct Sh, Sk. congruence.
        * lia.
        * lia.
      + rewrite app_nil_r. reflexivity.
      + constructor.
    - intros k Sk. eapply Safe_trans; eassumption. }
  unfold skip_space.
  destruct (isspace (char_at line (cursor f))).
  - apply wp_bind, wp_cursor_incr, wp_bind, wp_get_cursor, wp_bind, wp_read,
      wp_bind, wp_currentPos, wp_ret. simpl.
    rewrite wrap32_small by lia.
    apply Hrest; simpl; auto; try lia.
    eapply Safe_trans; [exact Sg|]. subst g.
    apply (Safe_intro (mkFrame _ _ _ _ _ _) _ [] [(AtSkip, cursor f + 1)]);
      simpl; try reflexivity.
    + rewrite app_nil_r. reflexivity.
    + constructor.
    + reads_ok.
  - apply wp_ret. simpl. apply Hrest; simpl; auto; lia.
Qed.

(** The loop of [ParseLine]: whether it ends or not, the state it reaches
    is safe. *)
Lemma scan_loop_safe fuel : forall f,
  0 <= cursor f <= size line + 1 ->
  Safe line f (frame_of (scan_loop line fuel f)).
Proof.
  induction fuel as [|fuel IH]; intros f Hc.
  - apply Safe_refl.
  - apply wp_frame_of. cbn [scan_loop].
    apply wp_bind, wp_valid.
    destruct (cursor f <? size line) eqn:Ev.
    + apply Z.ltb_lt in Ev. apply wp_bind.
      eapply wp_mono; [apply scan_step_wp; lia | | auto].
      intros _ g [Sg Cg].
      specialize (IH g ltac:(lia)).
      unfold wp. destruct (scan_loop line fuel g); simpl in IH;
        eapply Safe_trans; eassumption.
    + apply wp_ret, Safe_refl.
Qed.

End Safety.

(** ** Progress of the scan away from double quotes *)

Section Progress.

Variable line : string.
Hypothesis Hsize : size line < UINT32_MAX.

Lemma while_alnum_or_underscore_done sa su fuel : forall f,
  0 <= cursor f <= size line -> size line - cursor f < Z.of_nat fuel ->
  wp (while_alnum_or_underscore line sa su fuel) f
     (fun _ f' => cursor f <= cursor f' <= size line /\
                  (isalnum (char_at line (cursor f)) = true ->
                   cursor f < size line -> cursor f < cursor f'))
     (fun _ => False).
Proof.
  induction fuel as [|fuel IH]; intros f Hc Hf; [simpl in Hf; lia|].
  assert (Hgo : forall g,
             cursor g = cursor f -> cursor f < size line ->
             wp (cursor_incr ;; while_alnum_or_underscore line sa su fuel) g
                (fun _ f' => cursor f < cursor f' <= size line)
                (fun _ => False)).
  { intros g Hg Hlt. apply wp_bind, wp_cursor_incr.
    rewrite Hg, wrap32_small by lia.
    eapply wp_mono; [apply IH; simpl; lia | | auto].
    intros [] f' [C _]. simpl in C. lia. }
  cbn [while_alnum_or_underscore].
  apply wp_bind, wp_valid, wp_bind, wp_get_cursor.
  destruct (cursor f <? size line) eqn:Ev.
  - apply Z.ltb_lt in Ev. apply wp_bind, wp_bind, wp_read, wp_ret.
    destruct (isalnum (char_at line (cursor f))).
    + apply wp_bind, wp_ret.
      eapply wp_mono; [apply Hgo; auto | | auto].
      intros [] f' C. split; [lia | intros; lia].
    + apply wp_bind, wp_bind, wp_read, wp_ret.
      destruct (char_at line (cursor f) =? "_")%char.
      * eapply wp_mono; [apply Hgo; auto | | auto].
        intros [] f' C. split; [lia | discriminate].
      * apply wp_ret. simpl. split; [lia | discriminate].
  - apply Z.ltb_ge in Ev.
    apply wp_bind, wp_ret, wp_bind, wp_bind, wp_read, wp_ret.
    rewrite char_at_end by assumption.
    apply wp_ret. simpl. split; [lia | intros; lia].
Qed.

Lemma while_digit_done fuel : forall f,
  0 <= cursor f <= size line -> size line - cursor f < Z.of_nat fuel ->
  wp (while_digit line fuel) f
     (fun _ f' => cursor f <= cursor f' <= size line /\
                  (isdigit (char_at line (cursor f)) = true ->
                   cursor f < size line -> cursor f < cursor f'))
     (fun _ => False).
Proof.
  induction fuel as [|fuel IH]; intros f Hc Hf; [simpl in Hf; lia|].
  cbn [while_digit].
  apply wp_bind, wp_valid, wp_bind, wp_get_cursor.
  destruct (cursor f <? size line) eqn:Ev.
  - apply Z.ltb_lt in Ev. apply wp_bind, wp_bind, wp_read, wp_ret.
    destruct (isdigit (char_at line (cursor f))).
    + apply wp_bind, wp_cursor_incr. simpl. rewrite wrap32_small by lia.
      eapply wp_mono; [apply IH; simpl; lia | | auto].
      intros [] f' [C _]. simpl in C. split; [lia | intros; lia].
    + apply wp_ret. simpl. split; [lia | discriminate].
  - apply Z.ltb_ge in Ev. apply wp_bind, wp_ret, wp_ret.
    split; [lia | intros; lia].
Qed.

Lemma isalnum_in_line i :
  0 <= i -> isalnum (char_at line i) = true -> i < size line.
Proof.
  intros Hi H. apply char_at_nonzero; [assumption|].
  intros E. rewrite E in H. discriminate H.
Qed.

Lemma isdigit_isalnum c : isdigit c = true -> isalnum c = true.
Proof. unfold isalnum. intros ->. reflexivity. Qed.

(** The number and identifier branches finish, and the increment that ends
    the step then puts the cursor further than it was. *)
Lemma number_or_word_done fuel first pos token f :
  0 <= cursor f <= size line -> size line - cursor f < Z.of_nat fuel ->
  first = char_at line (cursor f) ->
  wp (number_or_word line fuel first pos token) f
     (fun _ f' => cursor f < wrap32 (cursor f' + 1) <= size line + 1)
     (fun _ => False).
Proof.
  intros Hc Hf ->. unfold number_or_word.
  assert (Hend : forall site g (k : string -> Token),
             cursor f < cursor g <= size line ->
             wp (c <- get_cursor ;;
                 value <- data_string line site (cursor f)
                            (wrap32 (c - cursor f)) ;;
                 cursor_decr ;; ret (k value)) g
                (fun _ f' => cursor f < wrap32 (cursor f' + 1)
                                      <= size line + 1)
                (fun _ => False)).
  { intros site g k Cg.
    apply wp_bind, wp_get_cursor, wp_bind, wp_data_string, wp_bind,
      wp_cursor_decr, wp_ret. simpl.
    rewrite wrap32_decr_incr by lia. lia. }
  destruct (isdigit (char_at line (cursor f))) eqn:Ed.
  - assert (cursor f < size line)
      by (apply isalnum_in_line, isdigit_isalnum; [lia | assumption]).
    apply wp_bind, wp_get_cursor, wp_bind.
    eapply wp_mono; [apply while_digit_done; assumption | | auto].
    intros [] g [Cg Pg]. apply Hend. specialize (Pg Ed). lia.
  - destruct (isalnum (char_at line (cursor f))) eqn:Ea.
    + assert (cursor f < size line)
        by (apply isalnum_in_line; [lia | assumption]).
      apply wp_bind, wp_get_cursor, wp_bind.
      eapply wp_mono;
        [apply while_alnum_or_underscore_done; assumption | | auto].
      intros [] g [Cg Pg]. apply Hend. specialize (Pg Ea). lia.
    + apply wp_ret. rewrite wrap32_small by lia. lia.
Qed.

(** The branch on [-] always finishes, one character further. *)
Lemma operators_minus pos token f :
  exists t rs,
    operators line "-" pos token f =
    Done t (mkFrame (m_Tokens f) (m_Filename f) (m_Row f)
                    (wrap32 (cursor f + 1)) (cout f) (reads f ++ rs)).
Proof.
  unfold operators. cbv iota beta.
  change ("-" =? "+")%char with false. change ("-" =? "-")%char with true.
  cbv iota.
  unfold cursor_incr, read, bind, get_cursor, set_cursor, log_reads, ret.
  simpl.
  destruct (char_at line (wrap32 (cursor f + 1)) =? ">")%char;
    unfold data_string, bind, log_reads, ret; simpl;
    do 2 eexists; rewrite <- ?app_assoc; reflexivity.
Qed.

Lemma classify_done fuel first pos token f :
  0 <= cursor f <= size line -> size line - cursor f < Z.of_nat fuel ->
  first = char_at line (cursor f) -> first <> dquote ->
  wp (classify line fuel first pos token) f
     (fun _ f' => cursor f < wrap32 (cursor f' + 1) <= size line + 1)
     (fun _ => False).
Proof.
  intros Hc Hf Hfirst Hq. unfold classify.
  apply Ascii.eqb_neq in Hq.
  generalize (separators first pos (brackets first pos token)).
  intros token1. apply wp_bind.
  destruct (first =? "-")%char eqn:Em.
  - apply Ascii.eqb_eq in Em. rewrite Em in *. clear Em Hq first.
    assert (cursor f < size line)
      by (apply char_at_nonzero; [lia | rewrite <- Hfirst; discriminate]).
    destruct (operators_minus pos token1 f) as [t [rs E]].
    unfold wp at 1. rewrite E.
    rewrite string_literal_other by reflexivity.
    apply wp_bind, wp_ret.
    rewrite number_or_word_other by reflexivity.
    apply wp_ret. simpl. rewrite !wrap32_small by (rewrite ?wrap32_small; lia).
    lia.
  - destruct (operators_other line first pos token1 Em) as [t [-> _]].
    apply wp_ret.
    rewrite string_literal_other by assumption.
    apply wp_bind, wp_ret.
    apply number_or_word_done; assumption.
Qed.

(** A step that does not classify a double quote finishes and moves the
    cursor forward. *)
Lemma scan_step_done fuel f :
  0 <= cursor f < size line -> size line - cursor f < Z.of_nat fuel ->
  char_at line (classified_index line f) <> dquote ->
  wp (scan_step line fuel) f
     (fun _ f' => cursor f < cursor f' <= size line + 1)
     (fun _ => False).
Proof.
  unfold classified_index. intros Hc Hf Hq. unfold scan_step.
  apply wp_bind, wp_currentPos, wp_bind, wp_get_cursor, wp_bind, wp_read,
    wp_bind.
  assert (Hrest : forall h first pos token,
             cursor f <= cursor h <= size line ->
             first = char_at line (cursor h) -> first <> dquote ->
             wp (token <- classify line fuel first pos token ;;
                 push_back token ;; cursor_incr) h
                (fun _ f' => cursor f < cursor f' <= size line + 1)
                (fun _ => False)).
  { intros h first pos token Ch Hfirst Hne.
    apply wp_bind.
    eapply wp_mono; [apply classify_done; eauto; lia | | auto].
    intros t k Ck. cbv beta in Ck.
    apply wp_bind, wp_push_back, wp_cursor_incr. simpl. lia. }
  unfold skip_space.
  destruct (isspace (char_at line (cursor f))).
  - apply wp_bind, wp_cursor_incr, wp_bind, wp_get_cursor, wp_bind, wp_read,
      wp_bind, wp_currentPos, wp_ret. simpl.
    rewrite wrap32_small by lia.
    apply Hrest; simpl; auto; lia.
  - apply wp_ret. simpl. apply Hrest; simpl; auto; lia.
Qed.

(** On a line without a double quote the loop of [ParseLine] ends. *)
Lemma scan_loop_done :
  (forall i, char_at line i <> dquote) ->
  forall fuel f,
    0 <= cursor f <= size line + 1 ->
    size line + 1 - cursor f < Z.of_nat fuel ->
    exists g, scan_loop line fuel f = Done tt g.
Proof.
  intros Hq. induction fuel as [|fuel IH]; intros f Hc Hf;
    [simpl in Hf; lia|].
  cbn [scan_loop]. unfold bind at 1, valid, bind at 1, get_cursor, ret.
  destruct (cursor f <? size line) eqn:Ev; [|eexists; reflexivity].
  apply Z.ltb_lt in Ev.
  pose proof (scan_step_done (S fuel) f ltac:(lia) ltac:(lia) (Hq _)) as W.
  unfold wp in W. unfold bind.
  destruct (scan_step line (S fuel) f) as [[] g|g]; [|contradiction].
  apply IH; lia.
Qed.

End Progress.

(** ** [ParseLine] as a whole *)

Lemma ParseLine_unfold line fuel f :
  ParseLine line fuel f =
  match scan_loop line fuel (enter f) with
  | Done _ g => Done tt (leave g)
  | OutOfFuel g => OutOfFuel g
  end.
Proof.
  unfold ParseLine, bind, set_cursor, row_incr, enter, leave.
  destruct (scan_loop line fuel _); reflexivity.
Qed.

(** What a call leaves untouched or only extends, for lines shorter than
    [UINT32_MAX] characters. *)
Lemma ParseLine_safe line fuel f :
  size line < UINT32_MAX ->
  let f' := frame_of (ParseLine line fuel f) in
  m_Filename f' = m_Filename f /\ cout f' = cout f /\
  (exists new, m_Tokens f' = m_Tokens f ++ new /\
               Forall (token_ok line f) new) /\
  (exists rs, reads f' = reads f ++ rs /\ Forall (read_ok line) rs).
Proof.
  intros Hsize. simpl. rewrite ParseLine_unfold.
  pose proof (scan_loop_safe line Hsize fuel (enter f)) as S.
  specialize (S ltac:(unfold size; simpl; lia)).
  destruct (scan_loop line fuel (enter f)) as [[] g|g]; simpl in *;
    destruct S as [F R C T D]; simpl in *; auto.
Qed.

(** ** Tokens are only appended *)

Lemma Ext_refl f : Ext f f.
Proof. repeat split. exists []. now rewrite app_nil_r. Qed.

Lemma Ext_trans f g h : Ext f g -> Ext g h -> Ext f h.
Proof.
  intros [F1 [R1 [n1 T1]]] [F2 [R2 [n2 T2]]].
  repeat split; try congruence.
  exists (n1 ++ n2). now rewrite T2, T1, app_assoc.
Qed.

Lemma appends_bind {A B} (m : M A) (k : A -> M B) :
  appends m -> (forall a, appends (k a)) -> appends (bind m k).
Proof.
  intros Hm Hk f. unfold bind. specialize (Hm f).
  destruct (m f) as [a g|g]; simpl in *; [|assumption].
  eapply Ext_trans; [exact Hm | apply Hk].
Qed.

Lemma appends_ret {A} (a : A) : appends (ret a).
Proof. intros f. apply Ext_refl. Qed.

Lemma appends_out_of_fuel {A} : appends (@out_of_fuel A).
Proof. intros f. apply Ext_refl. Qed.

Lemma appends_get_cursor : appends get_cursor.
Proof. intros f. apply Ext_refl. Qed.

Lemma appends_set_cursor c : appends (set_cursor c).
Proof. intros f. repeat split. exists []. simpl. now rewrite app_nil_r. Qed.

Lemma appends_log_reads rs : appends (log_reads rs).
Proof. intros f. repeat split. exists []. simpl. now rewrite app_nil_r. Qed.

Lemma appends_print s : appends (print s).
Proof. intros f. repeat split. exists []. simpl. now rewrite app_nil_r. Qed.

Lemma appends_push_back t : appends (push_back t).
Proof. intros f. repeat split. exists [t]. reflexivity. Qed.

Lemma appends_currentPos : appends currentPos.
Proof. intros f. apply Ext_refl. Qed.

Create HintDb appends.
#[local] Hint Resolve appends_ret appends_out_of_fuel appends_get_cursor
  appends_set_cursor appends_log_reads appends_print appends_push_back
  appends_currentPos : appends.

Ltac appends_step :=
  repeat first
    [ apply appends_bind; [|intros ?]
    | match goal with
      | |- appends (if ?b then _ else _) => destruct b
      end
    | solve [auto with appends] ].

Section Appends.

Variable line : string.

Lemma appends_cursor_incr : appends cursor_incr.
Proof. unfold cursor_incr. appends_step. Qed.

Lemma appends_cursor_decr : appends cursor_decr.
Proof. unfold cursor_decr. appends_step. Qed.

Lemma appends_valid : appends (valid line).
Proof. unfold valid. appends_step. Qed.

Lemma appends_read site i : appends (read line site i).
Proof. unfold read. appends_step. Qed.

Lemma appends_data_string site start n :
  appends (data_string line site start n).
Proof. unfold data_string. appends_step. Qed.

Lemma appends_Expected type msg pos : appends (Expected type msg pos).
Proof. unfold Expected. appends_step. Qed.

Hint Resolve appends_cursor_incr appends_cursor_decr appends_valid
  appends_read appends_data_string appends_Expected : appends.

Lemma appends_while_alnum_or_underscore sa su fuel :
  appends (while_alnum_or_underscore line sa su fuel).
Proof.
  induction fuel as [|fuel IH]; cbn [while_alnum_or_underscore];
    appends_step.
Qed.

Lemma appends_while_digit fuel : appends (while_digit line fuel).
Proof.
  induction fuel as [|fuel IH]; cbn [while_digit]; appends_step.
Qed.

Hint Resolve appends_while_alnum_or_underscore appends_while_digit
  : appends.

Lemma appends_scan_step fuel : appends (scan_step line fuel).
Proof.
  unfold scan_step, skip_space, classify, operators, string_literal,
    number_or_word.
  appends_step.
Qed.

Lemma appends_scan_loop fuel : appends (scan_loop line fuel).
Proof.
  induction fuel as [|fuel IH]; cbn [scan_loop].
  - apply appends_out_of_fuel.
  - apply appends_bind; [apply appends_valid|].
    intros [|]; [|apply appends_ret].
    apply appends_bind; [apply appends_scan_step | intros _; exact IH].
Qed.

End Appends.

(** ** A double quote under the cursor *)

Section Quote.

Variable line : string.

(** A step that starts on a double quote appends a [String] token with an
    empty value and leaves the cursor where it was: the decrement that
    ends the string branch undoes the increment that ends the step. *)
Lemma scan_step_quote fuel f :
  0 <= cursor f <= UINT32_MAX ->
  char_at line (cursor f) = dquote ->
  exists rs,
    scan_step line (S fuel) f =
    Done tt (mkFrame
               (m_Tokens f ++
                [tok TokenType.String (m_Filename f) (m_Row f) (cursor f)
                     EmptyString])
               (m_Filename f) (m_Row f) (cursor f) (cout f)
               (reads f ++ rs)).
Proof.
  intros Hc Hq.
  set (g := mkFrame (m_Tokens f) (m_Filename f) (m_Row f) (cursor f)
                    (cout f) (reads f ++ [(AtFirst, cursor f)])).
  set (pos := mkPosition (m_Filename f) (cursor f) (m_Row f)).
  destruct (string_literal_quote line fuel pos
              (mkToken TokenType.None pos EmptyString) g Hq)
    as [rs [E _]].
  exists ((AtFirst, cursor f) :: rs).
  unfold scan_step, bind at 1, currentPos at 1.
  unfold bind at 1, get_cursor at 1.
  unfold bind at 1, read at 1, bind at 1, log_reads at 1, ret at 1.
  fold g. fold pos. rewrite Hq.
  unfold bind at 1, skip_space at 1. change (isspace dquote) with false.
  cbv iota. unfold ret at 1. cbn [fst snd].
  unfold bind at 1, classify at 1.
  unfold bind at 1. cbn [operators brackets separators].
  change (operators line dquote pos
            (separators dquote pos
               (brackets dquote pos
                  (mkToken TokenType.None pos EmptyString))) g)
    with (Done (mkToken TokenType.None pos EmptyString) g).
  cbv iota. unfold bind at 1. rewrite E.
  rewrite number_or_word_other by reflexivity.
  unfold ret at 1. unfold push_back, cursor_incr, get_cursor, set_cursor,
    bind. simpl.
  rewrite wrap32_decr_incr by assumption.
  rewrite <- app_assoc. reflexivity.
Qed.

(** From a double quote the loop never gets away: whatever the fuel, it
    is used up, one [String] token with an empty value per round, and
    nothing is printed. *)
Lemma scan_loop_quote fuel : forall f,
  0 <= cursor f <= UINT32_MAX ->
  char_at line (cursor f) = dquote ->
  exists g,
    scan_loop line fuel f = OutOfFuel g /\
    m_Tokens g =
      m_Tokens f ++
      repeat (tok TokenType.String (m_Filename f) (m_Row f) (cursor f)
                  EmptyString) fuel /\
    m_Row g = m_Row f /\ cout g = cout f.
Proof.
  induction fuel as [|fuel IH]; intros f Hc Hq.
  - exists f. simpl. rewrite app_nil_r. auto.
  - assert (Hlt : cursor f < size line)
      by (apply char_at_nonzero; [lia | rewrite Hq; discriminate]).
    destruct (scan_step_quote fuel f Hc Hq) as [rs E].
    cbn [scan_loop]. unfold bind at 1, valid, bind at 1, get_cursor, ret.
    apply Z.ltb_lt in Hlt. rewrite Hlt. unfold bind. rewrite E.
    match goal with |- context [scan_loop line fuel ?h] =>
      destruct (IH h) as [g [Eg [Tg [Rg Cg]]]]; [exact Hc | exact Hq |]
    end.
    exists g. simpl in *. rewrite Eg, Tg, <- app_assoc. auto.
Qed.

End Quote.

(** On a line shorter than [UINT32_MAX] characters and without a double
    quote, [ParseLine] returns, given fuel for two rounds more than the
    line has characters. *)
Lemma ParseLine_returns_without_quote line fuel f :
  size line < UINT32_MAX ->
  (forall i, char_at line i <> dquote) ->
  size line + 1 < Z.of_nat fuel ->
  exists f', ParseLine line fuel f = Done tt f'.
Proof.
  intros Hsize Hq Hfuel. rewrite ParseLine_unfold.
  destruct (scan_loop_done line Hsize Hq fuel (enter f)) as [g E].
  - simpl. unfold size. lia.
  - simpl. lia.
  - rewrite E. eexists. reflexivity.
Qed.

(** A line that starts with a double quote: [ParseLine] does not return. *)
Lemma ParseLine_leading_quote line fuel f :
  char_at line 0 = dquote ->
  exists g,
    ParseLine line fuel f = OutOfFuel g /\
    m_Tokens g =
      m_Tokens f ++
      repeat (tok TokenType.String (m_Filename f) (m_Row f) 0 EmptyString)
             fuel /\
    m_Row g = m_Row f /\ cout g = cout f.
Proof.
  intros Hq. rewrite ParseLine_unfold.
  destruct (scan_loop_quote line fuel (enter f)) as [g [E H]];
    [simpl; unfold UINT32_MAX; lia | exact Hq |].
  exists g. rewrite E. auto.
Qed.

(** ** Lines with a double quote, the minus sign, punctuation *)

(** C1, on the code: [ParseLine] does not return on the line that consists
    of one double quote.  Whatever the fuel, the scan uses it up without
    reaching the end of the line; after [fuel] rounds it has appended
    [fuel] tokens of type [String] and the row counter is unchanged. *)
Theorem ParseLine_lone_quote_never_returns fuel f :
  exists g,
    ParseLine lone_quote fuel f = OutOfFuel g /\
    List.length (m_Tokens g) = (List.length (m_Tokens f) + fuel)%nat /\
    m_Row g = m_Row f.
Proof.
  destruct (ParseLine_leading_quote lone_quote fuel f eq_refl)
    as [g [E [T [R _]]]].
  exists g. rewrite T, length_app, repeat_length. auto.
Qed.

(** C2, on the code: on the balanced literal [quoted_hello] the scan never
    leaves the opening quote.  It appends one [String] token with the empty
    value at column 0 per round, never a token with the value [hello], and
    does not return. *)
Theorem ParseLine_quoted_hello_empty_tokens fuel f :
  exists g,
    ParseLine quoted_hello fuel f = OutOfFuel g /\
    m_Tokens g =
      m_Tokens f ++
      repeat (tok TokenType.String (m_Filename f) (m_Row f) 0 EmptyString)
             fuel.
Proof.
  destruct (ParseLine_leading_quote quoted_hello fuel f eq_refl)
    as [g [E [T _]]].
  exists g. auto.
Qed.

(** C3, on the code: on the unterminated literal [unterminated_hello]
    nothing is written to [std::cout], however long the scan runs: the test
    for the closing quote reads the opening quote.  The tokens appended
    have the empty value, and the scan does not return. *)
Theorem ParseLine_unterminated_prints_nothing fuel f :
  exists g,
    ParseLine unterminated_hello fuel f = OutOfFuel g /\
    cout g = cout f /\
    m_Tokens g =
      m_Tokens f ++
      repeat (tok TokenType.String (m_Filename f) (m_Row f) 0 EmptyString)
             fuel.
Proof.
  destruct (ParseLine_leading_quote unterminated_hello fuel f eq_refl)
    as [g [E [T [_ C]]]].
  exists g. auto.
Qed.

(** C5, on the code: on the line [-a] the step on [-] appends the [Minus]
    token and leaves the cursor at 2, behind the [a]; the scan returns with
    that one token, and [a] is never classified. *)
Theorem ParseLine_minus_skips_next fuel f :
  ParseLine "-a" (S (S fuel)) f =
  Done tt (mkFrame
             (m_Tokens f ++
              [tok TokenType.Minus (m_Filename f) (m_Row f) 0 "-"])
             (m_Filename f) (wrap32 (m_Row f + 1)) 2 (cout f)
             (reads f ++ [(AtFirst, 0); (AtLookahead, 1)])).
Proof.
  unfold ParseLine, bind, set_cursor, row_incr. cbn [scan_loop].
  unfold bind, valid, get_cursor, ret, scan_step, currentPos, read,
    log_reads, bind, ret. simpl.
  rewrite <- !app_assoc. reflexivity.
Qed.

(** C9: for each of the ten characters of [punctuation], the scan of the
    line that consists of that character returns and appends exactly one
    token, of the corresponding type, at column 0, whose value is that
    character. *)
Theorem ParseLine_punctuation :
  Forall (fun p =>
            forall fuel f,
              exists f',
                ParseLine (string1 (fst p)) (S (S fuel)) f = Done tt f' /\
                m_Tokens f' =
                  m_Tokens f ++
                  [tok (snd p) (m_Filename f) (m_Row f) 0 (string1 (fst p))])
         punctuation.
Proof.
  repeat constructor; intros fuel f; eexists; (split; [reflexivity|]);
    reflexivity.
Qed.

(** ** Characters that match no rule *)

Lemma classify_no_rule line fuel first pos token f :
  matches_rule first = false ->
  classify line fuel first pos token f = Done token f.
Proof.
  unfold matches_rule. intros H.
  apply orb_false_iff in H. destruct H as [H Ha].
  apply orb_false_iff in H. destruct H as [H Hd].
  cbn [existsb] in H.
  repeat (apply orb_false_iff in H;
          let E := fresh "E" in destruct H as [E H]).
  unfold classify, bind, operators, separators, brackets.
  rewrite E, E0, E1, E2, E3, E4, E5, E6, E7, E8, E9.
  unfold ret at 1.
  rewrite string_literal_other by assumption. unfold ret at 1.
  rewrite number_or_word_other by assumption. reflexivity.
Qed.

Lemma isspace_no_rule c : isspace c = true -> matches_rule c = false.
Proof.
  destruct c as [[] [] [] [] [] [] [] []]; intros H;
    solve [reflexivity | discriminate H].
Qed.

Section NoRule.

Variable line : string.

(** A step on a character that is not whitespace and matches no rule: the
    token the step was initialised with, of type [None] and with an empty
    value, is appended all the same. *)
Lemma scan_step_no_rule fuel f :
  isspace (char_at line (cursor f)) = false ->
  matches_rule (char_at line (cursor f)) = false ->
  scan_step line fuel f =
  Done tt (mkFrame
             (m_Tokens f ++
              [tok TokenType.None (m_Filename f) (m_Row f) (cursor f)
                   EmptyString])
             (m_Filename f) (m_Row f) (wrap32 (cursor f + 1)) (cout f)
             (reads f ++ [(AtFirst, cursor f)])).
Proof.
  intros Hs Hr.
  unfold scan_step, bind at 1, currentPos at 1.
  unfold bind at 1, get_cursor at 1.
  unfold bind at 1, read at 1, bind at 1, log_reads at 1, ret at 1.
  unfold bind at 1, skip_space at 1. rewrite Hs.
  unfold ret at 1. cbn [fst snd].
  unfold bind at 1. rewrite classify_no_rule by assumption.
  reflexivity.
Qed.

(** A step on a whitespace character, when the character behind it
    matches no rule: the token of type [None] is appended at the column of
    that second character, and the cursor ends two further. *)
Lemma scan_step_space_no_rule fuel f :
  isspace (char_at line (cursor f)) = true ->
  matches_rule (char_at line (wrap32 (cursor f + 1))) = false ->
  scan_step line fuel f =
  Done tt (mkFrame
             (m_Tokens f ++
              [tok TokenType.None (m_Filename f) (m_Row f)
                   (wrap32 (cursor f + 1)) EmptyString])
             (m_Filename f) (m_Row f)
             (wrap32 (wrap32 (cursor f + 1) + 1)) (cout f)
             (reads f ++ [(AtFirst, cursor f);
                          (AtSkip, wrap32 (cursor f + 1))])).
Proof.
  intros Hs Hr.
  unfold scan_step, bind at 1, currentPos at 1.
  unfold bind at 1, get_cursor at 1.
  unfold bind at 1, read at 1, bind at 1, log_reads at 1, ret at 1.
  unfold bind at 1, skip_space at 1. rewrite Hs.
  cbv [bind cursor_incr get_cursor set_cursor read log_reads currentPos ret
       fst snd cursor m_Tokens m_Filename m_Row cout reads Type_ Value].
  rewrite classify_no_rule by assumption.
  cbv [push_back m_Tokens m_Filename m_Row cout reads cursor].
  rewrite <- app_assoc. reflexivity.
Qed.

End NoRule.

(** ** Lines of whitespace *)

Lemma odd_columns_length c k : List.length (odd_columns c k) = k.
Proof. revert c. induction k; intros c; simpl; auto. Qed.

Lemma get_all_space line :
  all_space line = true ->
  forall n c, String.get n line = Some c -> isspace c = true.
Proof.
  unfold all_space.
  induction line as [|a line IH]; simpl; intros H n c E; [discriminate|].
  apply andb_true_iff in H. destruct H as [Ha Hl].
  destruct n as [|n]; [congruence | eauto].
Qed.

Lemma char_at_all_space line i :
  all_space line = true -> 0 <= i < size line ->
  isspace (char_at line i) = true.
Proof.
  intros H Hi. unfold char_at.
  destruct (String.get (Z.to_nat i) line) as [c|] eqn:E.
  - eapply get_all_space; eassumption.
  - apply get_none_iff in E. unfold size in Hi. lia.
Qed.

Lemma all_space_no_rule line i :
  all_space line = true -> 0 <= i ->
  matches_rule (char_at line i) = false.
Proof.
  intros H Hi. destruct (Z_lt_le_dec i (size line)) as [Hlt|Hge].
  - apply isspace_no_rule, char_at_all_space; auto.
  - rewrite char_at_end by assumption. reflexivity.
Qed.

Section AllSpace.

Variable line : string.
Hypothesis Hspace : all_space line = true.
Hypothesis Hsize : size line < UINT32_MAX.

(** The loop on a line of whitespace: each round consumes two characters
    and appends one token of type [None], at the column of the second. *)
Lemma scan_loop_all_space k : forall f fuel,
  0 <= cursor f <= size line + 1 ->
  Z.to_nat ((size line - cursor f + 1) / 2) = k ->
  (k < fuel)%nat ->
  exists g,
    scan_loop line fuel f = Done tt g /\
    m_Tokens g =
      m_Tokens f ++
      map (fun c => tok TokenType.None (m_Filename f) (m_Row f) c
                        EmptyString)
          (odd_columns (cursor f) k) /\
    m_Filename g = m_Filename f /\ m_Row g = m_Row f /\ cout g = cout f.
Proof.
  induction k as [|k IH]; intros f fuel Hc Hk Hfuel;
    (destruct fuel as [|fuel]; [lia|]); cbn [scan_loop];
    unfold bind at 1, valid, bind at 1, get_cursor, ret.
  - assert (Hv : (cursor f <? size line) = false).
    { apply Z.ltb_ge. Z.div_mod_to_equations. lia. }
    rewrite Hv. exists f. simpl. rewrite app_nil_r. auto.
  - assert (Hlt : cursor f + 1 <= size line).
    { Z.div_mod_to_equations. lia. }
    assert (Hv : (cursor f <? size line) = true) by (apply Z.ltb_lt; lia).
    rewrite Hv. unfold bind.
    rewrite scan_step_space_no_rule.
    + rewrite !wrap32_small by lia.
      match goal with |- context [scan_loop line fuel ?h] =>
        destruct (IH h fuel) as [g [E [T [F [R C]]]]]
      end.
      * simpl. lia.
      * simpl. Z.div_mod_to_equations. lia.
      * lia.
      * exists g. rewrite E, T. simpl. rewrite <- app_assoc.
        replace (cursor f + 1 + 1) with (cursor f + 2) by lia.
        auto.
    + apply char_at_all_space; [assumption | lia].
    + apply all_space_no_rule; [assumption|].
      unfold wrap32. apply Z.mod_pos_bound. reflexivity.
Qed.

End AllSpace.

(** The step from a whitespace character, up to the classification. *)
Lemma scan_step_space line fuel f :
  isspace (char_at line (cursor f)) = true ->
  scan_step line fuel f =
  (let pos := mkPosition (m_Filename f) (wrap32 (cursor f + 1)) (m_Row f) in
   token <- classify line fuel (char_at line (wrap32 (cursor f + 1))) pos
              (mkToken TokenType.None pos EmptyString) ;;
   push_back token ;;
   cursor_incr)
    (mkFrame (m_Tokens f) (m_Filename f) (m_Row f) (wrap32 (cursor f + 1))
             (cout f)
             (reads f ++ [(AtFirst, cursor f);
                          (AtSkip, wrap32 (cursor f + 1))])).
Proof.
  intros Hs.
  unfold scan_step, bind at 1, currentPos at 1.
  unfold bind at 1, get_cursor at 1.
  unfold bind at 1, read at 1, bind at 1, log_reads at 1, ret at 1.
  unfold bind at 1, skip_space at 1. rewrite Hs.
  cbv [bind cursor_incr get_cursor set_cursor read log_reads currentPos ret
       fst snd cursor m_Tokens m_Filename m_Row cout reads Type_ Value].
  rewrite <- app_assoc. reflexivity.
Qed.

(** C4, as the code has it: when the character a step classifies matches no
    rule and is not whitespace, the step prints nothing and appends exactly
    one token, of type [None] and with an empty value, at the index of that
    character; the cursor ends just behind it. *)
Theorem scan_step_unmatched_appends_None line fuel f :
  0 <= cursor f < size line -> size line < UINT32_MAX ->
  isspace (char_at line (classified_index line f)) = false ->
  matches_rule (char_at line (classified_index line f)) = false ->
  exists rs,
    scan_step line fuel f =
    Done tt (mkFrame
               (m_Tokens f ++
                [tok TokenType.None (m_Filename f) (m_Row f)
                     (classified_index line f) EmptyString])
               (m_Filename f) (m_Row f) (classified_index line f + 1)
               (cout f) (reads f ++ rs)).
Proof.
  unfold classified_index. intros Hc Hsize Hs Hr.
  destruct (isspace (char_at line (cursor f))) eqn:E.
  - eexists. rewrite scan_step_space_no_rule; rewrite ?wrap32_small by lia;
      auto.
  - eexists. rewrite scan_step_no_rule; rewrite ?wrap32_small by lia; auto.
Qed.

Lemma scan_step_unmatched_witness :
  exists rs,
    scan_step "@" 0 (Lexer "main.vs") =
    Done tt (mkFrame [tok TokenType.None "main.vs" 0 0 EmptyString]
                     "main.vs" 0 1 EmptyString rs).
Proof.
  apply (scan_step_unmatched_appends_None "@" 0 (Lexer "main.vs"));
    [unfold size; simpl; lia | reflexivity | reflexivity | reflexivity].
Defined.

(** C4 as stated fails on the line [@]: the scan appends a token for the
    character. *)
Lemma ParseLine_at_sign_appends_token :
  ParseLine "@" 2 (Lexer "main.vs") =
  Done tt (mkFrame [tok TokenType.None "main.vs" 0 0 EmptyString]
                   "main.vs" 1 1 EmptyString [(AtFirst, 0)]) /\
  appended (Lexer "main.vs")
           (frame_of (ParseLine "@" 2 (Lexer "main.vs"))) <> [].
Proof. split; [reflexivity | discriminate]. Qed.

(** C6, as the code has it.  A step that starts on whitespace advances the
    cursor past that one character and classifies the next character in the
    same step, as a step classifies its first character; the step appends
    the resulting token, which has type [None] when the next character
    matches no rule, as whitespace and the end of the line do.  So the scan
    of a line of [n] whitespace characters returns and appends one token
    of type [None] for every two characters, rounded up, at the columns
    1, 3, 5, ... *)
Theorem whitespace_skip_and_whitespace_lines line fuel f :
  size line < UINT32_MAX ->
  (0 <= cursor f < size line ->
   isspace (char_at line (cursor f)) = true ->
   scan_step line fuel f =
   (let pos := mkPosition (m_Filename f) (cursor f + 1) (m_Row f) in
    token <- classify line fuel (char_at line (cursor f + 1)) pos
               (mkToken TokenType.None pos EmptyString) ;;
    push_back token ;;
    cursor_incr)
     (mkFrame (m_Tokens f) (m_Filename f) (m_Row f) (cursor f + 1) (cout f)
              (reads f ++ [(AtFirst, cursor f); (AtSkip, cursor f + 1)])))
  /\
  (all_space line = true ->
   (Z.to_nat ((size line + 1) / 2) < fuel)%nat ->
   exists f',
     ParseLine line fuel f = Done tt f' /\
     m_Tokens f' =
       m_Tokens f ++
       map (fun c => tok TokenType.None (m_Filename f) (m_Row f) c
                         EmptyString)
           (odd_columns 0 (Z.to_nat ((size line + 1) / 2))) /\
     cout f' = cout f).
Proof.
  intros Hsize. split.
  - intros Hc Hs. rewrite scan_step_space by assumption.
    rewrite wrap32_small by lia. reflexivity.
  - intros Hspace Hfuel. rewrite ParseLine_unfold.
    destruct (scan_loop_all_space line Hspace Hsize
                (Z.to_nat ((size line + 1) / 2)) (enter f) fuel)
      as [g [E [T [F [R C]]]]].
    + simpl. unfold size. lia.
    + simpl. f_equal. f_equal. lia.
    + assumption.
    + rewrite E. exists (leave g). simpl. auto.
Qed.

Lemma whitespace_lines_witness :
  exists f',
    ParseLine "   " 3 (Lexer "main.vs") = Done tt f' /\
    m_Tokens f' =
      [tok TokenType.None "main.vs" 0 1 EmptyString;
       tok TokenType.None "main.vs" 0 3 EmptyString] /\
    cout f' = EmptyString.
Proof.
  apply (proj2 (whitespace_skip_and_whitespace_lines "   " 3
                  (Lexer "main.vs") eq_refl));
    [reflexivity | vm_compute; lia].
Defined.

(** C6 as stated fails on the line of one space: the scan appends a token. *)
Lemma ParseLine_space_appends_token :
  ParseLine " " 2 (Lexer "main.vs") =
  Done tt (mkFrame [tok TokenType.None "main.vs" 0 1 EmptyString]
                   "main.vs" 1 2 EmptyString [(AtFirst, 0); (AtSkip, 1)]) /\
  appended (Lexer "main.vs")
           (frame_of (ParseLine " " 2 (Lexer "main.vs"))) <> [].
Proof. split; [reflexivity | discriminate]. Qed.

(** ** The row counter and the token sequence *)

(** C8: a call of [ParseLine] that returns has increased the row counter by
    one, in [uint32_t] arithmetic, which is by exactly one below
    [UINT32_MAX]; and the token sequence it leaves is the one it found
    followed by the tokens of the line, so its length has not decreased. *)
Theorem ParseLine_row_and_tokens line fuel f f' :
  ParseLine line fuel f = Done tt f' ->
  m_Row f' = wrap32 (m_Row f + 1) /\
  (0 <= m_Row f < UINT32_MAX -> m_Row f' = m_Row f + 1) /\
  (exists new, m_Tokens f' = m_Tokens f ++ new) /\
  (List.length (m_Tokens f) <= List.length (m_Tokens f'))%nat.
Proof.
  rewrite ParseLine_unfold. intros H.
  pose proof (appends_scan_loop line fuel (enter f)) as A.
  destruct (scan_loop line fuel (enter f)) as [[] g|g]; [|discriminate].
  injection H as <-. destruct A as [F [R [new T]]]. simpl in *.
  rewrite R. split; [reflexivity|]. split.
  - intros Hr. apply wrap32_small. lia.
  - split; [exists new; exact T|]. rewrite T, length_app. lia.
Qed.

Lemma ParseLine_row_and_tokens_witness :
  ParseLine "return x;" 11 after_fn =
    Done tt (frame_of (ParseLine "return x;" 11 after_fn)) /\
  m_Row (frame_of (ParseLine "return x;" 11 after_fn)) = wrap32 (1 + 1) /\
  (0 <= 1 < UINT32_MAX ->
   m_Row (frame_of (ParseLine "return x;" 11 after_fn)) = 1 + 1) /\
  (exists new,
      m_Tokens (frame_of (ParseLine "return x;" 11 after_fn)) =
      [tok TokenType.Keyword "main.vs" 0 0 "fn"] ++ new) /\
  (1 <= List.length
          (m_Tokens (frame_of (ParseLine "return x;" 11 after_fn))))%nat.
Proof.
  split; [vm_compute; reflexivity|].
  apply (ParseLine_row_and_tokens "return x;" 11 after_fn
           (frame_of (ParseLine "return x;" 11 after_fn))).
  vm_compute; reflexivity.
Defined.

(** ** Positions *)

Lemma appended_app f f' new :
  m_Tokens f' = m_Tokens f ++ new -> appended f f' = new.
Proof.
  intros H. unfold appended. rewrite H.
  rewrite skipn_app, skipn_all, Nat.sub_diag. reflexivity.
Qed.

(** What a returning call has done to the members of the lexer. *)
Lemma ParseLine_done line fuel f f' :
  ParseLine line fuel f = Done tt f' ->
  m_Row f' = wrap32 (m_Row f + 1) /\ m_Filename f' = m_Filename f /\
  exists new, m_Tokens f' = m_Tokens f ++ new.
Proof.
  rewrite ParseLine_unfold. intros H.
  pose proof (appends_scan_loop line fuel (enter f)) as A.
  destruct (scan_loop line fuel (enter f)) as [[] g|g]; [|discriminate].
  injection H as <-. destruct A as [F [R T]]. simpl in *.
  rewrite R, F. auto.
Qed.




(** ** Reads of the line *)

Lemma new_reads_app f f' rs :
  reads f' = reads f ++ rs -> new_reads f f' = rs.
Proof.
  intros H. unfold new_reads. rewrite H.
  rewrite skipn_app, skipn_all, Nat.sub_diag. reflexivity.
Qed.

(** C10, as the code has it: whether the scan of a line returns or not,
    every character it reads is at an index between 0 and the length of the
    line.  The index equal to the length is read by the lookahead on a [-]
    that ends the line, by the skip of a whitespace character that ends the
    line, and by the underscore test of the identifier loop. *)
Theorem reads_within_line :
  (forall line fuel f,
      size line < UINT32_MAX ->
      Forall (fun r => 0 <= snd r <= size line)
             (new_reads f (frame_of (ParseLine line fuel f)))) /\
  In (AtLookahead, size "-")
     (new_reads (Lexer "main.vs")
                (frame_of (ParseLine "-" 2 (Lexer "main.vs")))) /\
  In (AtSkip, size " ")
     (new_reads (Lexer "main.vs")
                (frame_of (ParseLine " " 2 (Lexer "main.vs")))) /\
  In (AtIdentUnderscore, size "a")
     (new_reads (Lexer "main.vs")
                (frame_of (ParseLine "a" 2 (Lexer "main.vs")))).
Proof.
  split.
  - intros line fuel f Hsize.
    destruct (ParseLine_safe line fuel f Hsize) as [_ [_ [_ [rs [E O]]]]].
    rewrite (new_reads_app _ _ _ E).
    eapply Forall_impl; [|exact O]. intros r [H _]. exact H.
  - repeat split; vm_compute; tauto.
Qed.

Lemma reads_within_line_witness :
  Forall (fun r => 0 <= snd r <= size "foo_1 -")
         (new_reads (Lexer "main.vs")
                    (frame_of (ParseLine "foo_1 -" 4 (Lexer "main.vs")))).
Proof.
  apply (proj1 reads_within_line "foo_1 -" 4%nat (Lexer "main.vs")).
  reflexivity.
Defined.

(** C10 as stated fails for the string loop: its underscore test never
    reads the index equal to the length of the line, because the loop
    stops on the opening quote, which lies inside the line. *)
Lemma string_loop_never_reads_end :
  ~ exists line fuel f,
      size line < UINT32_MAX /\
      In (AtStringUnderscore, size line)
         (new_reads f (frame_of (ParseLine line fuel f))).
Proof.
  intros [line [fuel [f [Hsize Hin]]]].
  destruct (ParseLine_safe line fuel f Hsize) as [_ [_ [_ [rs [E O]]]]].
  rewrite (new_reads_app _ _ _ E) in Hin.
  rewrite Forall_forall in O. destruct (O _ Hin) as [_ H].
  specialize (H eq_refl). simpl in H. lia.
Qed.

(** ** Substrings of the line *)

Lemma length_substring s : forall n m,
  (n + m <= String.length s)%nat -> String.length (substring n m s) = m.
Proof.
  induction s as [|a s IH]; intros [|n] [|m] H; simpl in *;
    try reflexivity; try lia;
    solve [rewrite IH by lia; reflexivity | apply IH; lia].
Qed.

Lemma substring_all s : substring 0 (String.length s) s = s.
Proof. induction s as [|a s IH]; simpl; [|rewrite IH]; reflexivity. Qed.

Lemma char_at_cons a s (i : nat) :
  char_at (String a s) (Z.of_nat (S i)) = char_at s (Z.of_nat i).
Proof. unfold char_at. rewrite !Nat2Z.id. reflexivity. Qed.

Lemma substring_step s : forall n m,
  (n < String.length s)%nat ->
  substring n (S m) s =
  String (char_at s (Z.of_nat n)) (substring (S n) m s).
Proof.
  induction s as [|a s IH]; intros n m H; simpl in H; [lia|].
  destruct n as [|n].
  - reflexivity.
  - rewrite char_at_cons. simpl substring at 1.
    rewrite IH by lia. reflexivity.
Qed.

Lemma forallb_substring (P : ascii -> bool) s : forall n m,
  (forall i, (n <= i < n + m)%nat -> P (char_at s (Z.of_nat i)) = true) ->
  forallb P (list_ascii_of_string (substring n m s)) = true.
Proof.
  induction s as [|a s IH]; intros n m H.
  - destruct n, m; reflexivity.
  - destruct n as [|n].
    + destruct m as [|m]; [reflexivity|]. simpl.
      apply andb_true_iff. split.
      * apply (H 0%nat). lia.
      * apply IH. intros i Hi.
        rewrite <- char_at_cons with (a := a). apply H. lia.
    + simpl. apply IH. intros i Hi.
      rewrite <- char_at_cons with (a := a). apply H. lia.
Qed.

Lemma string_append_assoc (a b c : string) :
  ((a ++ b) ++ c = a ++ (b ++ c))%string.
Proof. induction a as [|x a IH]; simpl; [|rewrite IH]; reflexivity. Qed.

(** ** The lexeme of one step *)

Lemma classified_index_at line f :
  classified_index line f = classified_at line (cursor f).
Proof. reflexivity. Qed.

Lemma isalnum_not_digit_or_word c :
  isalnum c = false -> isdigit c = false.
Proof.
  unfold isalnum. intros H.
  apply orb_false_iff in H. destruct H as [H _].
  apply orb_false_iff in H. tauto.
Qed.

Section Lexemes.

Variable line : string.
Hypothesis Hsize : size line < UINT32_MAX.

Lemma is_word_char_in_line i :
  0 <= i -> is_word_char (char_at line i) = true -> i < size line.
Proof.
  intros Hi H. apply char_at_nonzero; [assumption|].
  intros E. rewrite E in H. discriminate H.
Qed.

Lemma isdigit_in_line i :
  0 <= i -> isdigit (char_at line i) = true -> i < size line.
Proof.
  intros Hi H. apply char_at_nonzero; [assumption|].
  intros E. rewrite E in H. discriminate H.
Qed.

(** The loop of the identifier branch stops on the first character that is
    neither alphanumeric nor an underscore. *)
Lemma while_alnum_or_underscore_run sa su fuel : forall f,
  0 <= cursor f <= size line ->
  wp (while_alnum_or_underscore line sa su fuel) f
     (fun _ f' =>
        m_Tokens f' = m_Tokens f /\ cursor f <= cursor f' <= size line /\
        (forall i, cursor f <= i < cursor f' ->
                   is_word_char (char_at line i) = true) /\
        is_word_char (char_at line (cursor f')) = false)
     (fun f' => m_Tokens f' = m_Tokens f).
Proof.
  induction fuel as [|fuel IH]; intros f Hc; [reflexivity|].
  assert (Hgo : forall g,
             m_Tokens g = m_Tokens f -> cursor g = cursor f ->
             cursor f < size line ->
             is_word_char (char_at line (cursor f)) = true ->
             wp (cursor_incr ;; while_alnum_or_underscore line sa su fuel) g
                (fun _ f' =>
                   m_Tokens f' = m_Tokens f /\
                   cursor f <= cursor f' <= size line /\
                   (forall i, cursor f <= i < cursor f' ->
                              is_word_char (char_at line i) = true) /\
                   is_word_char (char_at line (cursor f')) = false)
                (fun f' => m_Tokens f' = m_Tokens f)).
  { intros g Tg Hg Hlt Hw. apply wp_bind, wp_cursor_incr.
    rewrite Hg, wrap32_small by lia.
    eapply wp_mono; [apply IH; simpl; lia | |]; simpl.
    - intros [] f' [T [C [R E]]]. simpl in *.
      split; [congruence|]. split; [lia|]. split; [|exact E].
      intros i Hi. destruct (Z.eq_dec i (cursor f)) as [->|Hne];
        [exact Hw | apply R; lia].
    - intros f' T. simpl in T. congruence. }
  cbn [while_alnum_or_underscore].
  apply wp_bind, wp_valid, wp_bind, wp_get_cursor.
  destruct (cursor f <? size line) eqn:Ev.
  - apply Z.ltb_lt in Ev. apply wp_bind, wp_bind, wp_read, wp_ret.
    destruct (isalnum (char_at line (cursor f))) eqn:Ea.
    + apply wp_bind, wp_ret. apply Hgo; auto.
      unfold is_word_char. rewrite Ea. reflexivity.
    + apply wp_bind, wp_bind, wp_read, wp_ret.
      destruct (char_at line (cursor f) =? "_")%char eqn:Eu.
      * apply Hgo; auto. unfold is_word_char. rewrite Ea, Eu. reflexivity.
      * apply wp_ret. simpl. split; [reflexivity|]. split; [lia|].
        split; [intros i Hi; lia|].
        unfold is_word_char. rewrite Ea, Eu. reflexivity.
  - apply Z.ltb_ge in Ev.
    apply wp_bind, wp_ret, wp_bind, wp_bind, wp_read, wp_ret.
    rewrite char_at_end by assumption.
    apply wp_ret. simpl. split; [reflexivity|]. split; [lia|].
    split; [intros i Hi; lia|].
    rewrite char_at_end by assumption. reflexivity.
Qed.

(** The loop of the number branch stops on the first character that is not
    a digit. *)
Lemma while_digit_run fuel : forall f,
  0 <= cursor f <= size line ->
  wp (while_digit line fuel) f
     (fun _ f' =>
        m_Tokens f' = m_Tokens f /\ cursor f <= cursor f' <= size line /\
        (forall i, cursor f <= i < cursor f' ->
                   isdigit (char_at line i) = true) /\
        isdigit (char_at line (cursor f')) = false)
     (fun f' => m_Tokens f' = m_Tokens f).
Proof.
  induction fuel as [|fuel IH]; intros f Hc; [reflexivity|].
  cbn [while_digit].
  apply wp_bind, wp_valid, wp_bind, wp_get_cursor.
  destruct (cursor f <? size line) eqn:Ev.
  - apply Z.ltb_lt in Ev. apply wp_bind, wp_bind, wp_read, wp_ret.
    destruct (isdigit (char_at line (cursor f))) eqn:Ed.
    + apply wp_bind, wp_cursor_incr. simpl. rewrite wrap32_small by lia.
      eapply wp_mono; [apply IH; simpl; lia | |]; simpl.
      * intros [] f' [T [C [R E]]]. simpl in *.
        split; [congruence|]. split; [lia|]. split; [|exact E].
        intros i Hi. destruct (Z.eq_dec i (cursor f)) as [->|Hne];
          [exact Ed | apply R; lia].
      * intros f' T. simpl in T. congruence.
    + apply wp_ret. simpl. split; [reflexivity|]. split; [lia|].
      split; [intros i Hi; lia | exact Ed].
  - apply Z.ltb_ge in Ev. apply wp_bind, wp_ret, wp_ret.
    split; [reflexivity|]. split; [lia|].
    split; [intros i Hi; lia|].
    rewrite char_at_end by assumption. reflexivity.
Qed.

(** The characters between two cursors form a run. *)
Lemma run_ok_intro (P : ascii -> bool) c c' :
  0 <= c < c' -> c' <= size line ->
  (forall i, c <= i < c' -> P (char_at line i) = true) ->
  P (char_at line c') = false ->
  run_ok P line c (substring (Z.to_nat c) (Z.to_nat (c' - c)) line) = true /\
  Z.of_nat (String.length
              (substring (Z.to_nat c) (Z.to_nat (c' - c)) line)) = c' - c.
Proof.
  intros Hc Hc' Hrun Hend.
  assert (L : String.length
                (substring (Z.to_nat c) (Z.to_nat (c' - c)) line) =
              Z.to_nat (c' - c))
    by (apply length_substring; unfold size in *; lia).
  split; [|rewrite L; lia].
  unfold run_ok. rewrite L, String.eqb_refl. simpl.
  rewrite forallb_substring by (intros i Hi; apply Hrun; lia). simpl.
  replace (c + Z.of_nat (Z.to_nat (c' - c))) with c' by lia.
  rewrite Hend. simpl. apply Nat.ltb_lt. lia.
Qed.

(** The token of the number and identifier branches. *)
Lemma number_or_word_lexeme fuel first pos token f :
  0 <= cursor f <= size line ->
  first = char_at line (cursor f) -> Column pos = cursor f ->
  isalnum first = true ->
  wp (number_or_word line fuel first pos token) f
     (fun t f' =>
        m_Tokens f' = m_Tokens f /\ Pos t = pos /\
        lexeme_ok line t = true /\
        wrap32 (cursor f' + 1) = cursor f + width t)
     (fun f' => m_Tokens f' = m_Tokens f).
Proof.
  intros Hc Hfirst Hcol Ha. unfold number_or_word. rewrite Ha.
  assert (Hlt : cursor f < size line)
    by (apply isalnum_in_line; [lia | rewrite <- Hfirst; exact Ha]).
  destruct (isdigit first) eqn:Ed.
  - apply wp_bind, wp_get_cursor, wp_bind.
    eapply wp_mono; [apply while_digit_run; assumption | | auto].
    intros [] g [Tg [Cg [Rg Eg]]].
    assert (cursor f < cursor g).
    { destruct (Z.eq_dec (cursor g) (cursor f)) as [E|]; [|lia].
      rewrite E, <- Hfirst, Ed in Eg. discriminate. }
    destruct (run_ok_intro isdigit (cursor f) (cursor g)) as [Hrun Hlen];
      try assumption; try lia.
    apply wp_bind, wp_get_cursor, wp_bind, wp_data_string, wp_bind,
      wp_cursor_decr, wp_ret. simpl.
    rewrite wrap32_decr_incr, (wrap32_small (cursor g - cursor f)) by lia.
    split; [assumption|]. split; [reflexivity|].
    unfold lexeme_ok, width. simpl. rewrite Hcol, Hrun, Hlen.
    split; [reflexivity | lia].
  - apply wp_bind, wp_get_cursor, wp_bind.
    eapply wp_mono;
      [apply while_alnum_or_underscore_run; assumption | | auto].
    intros [] g [Tg [Cg [Rg Eg]]].
    assert (cursor f < cursor g).
    { destruct (Z.eq_dec (cursor g) (cursor f)) as [E|]; [|lia].
      rewrite E, <- Hfirst in Eg. unfold is_word_char in Eg.
      rewrite Ha in Eg. discriminate. }
    destruct (run_ok_intro is_word_char (cursor f) (cursor g))
      as [Hrun Hlen]; try assumption; try lia.
    apply wp_bind, wp_get_cursor, wp_bind, wp_data_string, wp_bind,
      wp_cursor_decr, wp_ret. simpl.
    rewrite wrap32_decr_incr, (wrap32_small (cursor g - cursor f)) by lia.
    split; [assumption|].
    destruct (s_Keywords_contains _) eqn:Ek;
      (split; [reflexivity|]);
      unfold lexeme_ok, width; simpl;
      rewrite Hcol, <- Hfirst, Ha, Ed, Hrun, Ek, Hlen;
      (split; [reflexivity | lia]).
Qed.

(** The token of the chains on single characters, for a character that is
    neither [-], nor a double quote, nor alphanumeric. *)
Lemma single_character_lexeme first pos :
  first = char_at line (Column pos) ->
  (first =? "-")%char = false -> (first =? dquote)%char = false ->
  isalnum first = false ->
  exists t,
    operators line first pos
      (separators first pos
         (brackets first pos (mkToken TokenType.None pos EmptyString))) =
    ret t /\
    Pos t = pos /\ lexeme_ok line t = true /\ width t = 1.
Proof.
  intros Hfirst Em Eq Ea.
  pose proof (isalnum_not_digit_or_word first Ea) as Ed.
  unfold operators, separators, brackets. rewrite Em.
  repeat match goal with
         | |- context [(first =? ?ch)%char] =>
             let E := fresh "E" in
             destruct (first =? ch)%char eqn:E;
             [ apply Ascii.eqb_eq in E; rewrite E in *; clear E;
               eexists; simpl;
               (split; [reflexivity|]); (split; [reflexivity|]);
               unfold lexeme_ok; simpl; rewrite <- Hfirst;
               split; reflexivity
             | ]
         end.
  eexists. split; [reflexivity|]. split; [reflexivity|].
  split; [|reflexivity].
  unfold lexeme_ok. simpl. rewrite <- Hfirst.
  unfold matches_rule. simpl existsb.
  rewrite E, E0, E1, E2, E3, E4, E5, Em, E6, E7, E8, Eq, Ed, Ea.
  reflexivity.
Qed.

Lemma isalnum_not_special first :
  isalnum first = true ->
  (first =? "-")%char = false /\ (first =? dquote)%char = false.
Proof.
  intros H. split; apply Ascii.eqb_neq; intros ->; discriminate H.
Qed.

(** The token of a classification, and where it leaves the cursor. *)
Lemma classify_lexeme fuel first pos f :
  0 <= cursor f <= size line ->
  first = char_at line (cursor f) -> Column pos = cursor f ->
  wp (classify line fuel first pos (mkToken TokenType.None pos EmptyString))
     f
     (fun t f' =>
        m_Tokens f' = m_Tokens f /\ Pos t = pos /\
        lexeme_ok line t = true /\
        wrap32 (cursor f' + 1) = cursor f + width t)
     (fun f' => m_Tokens f' = m_Tokens f).
Proof.
  intros Hc Hfirst Hcol. unfold classify.
  destruct (first =? dquote)%char eqn:Eq.
  - apply Ascii.eqb_eq in Eq. rewrite Eq in *. clear Eq first.
    destruct (operators_other line dquote pos
                (separators dquote pos
                   (brackets dquote pos
                      (mkToken TokenType.None pos EmptyString))) eq_refl)
      as [t [-> _]].
    apply wp_bind, wp_ret, wp_bind.
    destruct fuel as [|fuel]; [reflexivity|].
    destruct (string_literal_quote line fuel pos t f (eq_sym Hfirst))
      as [rs [E _]].
    unfold wp at 1. rewrite E.
    rewrite number_or_word_other by reflexivity.
    apply wp_ret. simpl. rewrite wrap32_decr_incr by lia.
    split; [reflexivity|]. split; [reflexivity|].
    unfold lexeme_ok, width. simpl. rewrite Hcol, <- Hfirst.
    split; [reflexivity | lia].
  - destruct (first =? "-")%char eqn:Em.
    + apply Ascii.eqb_eq in Em. rewrite Em in *. clear Em Eq first.
      assert (Hlt : cursor f < size line)
        by (apply char_at_nonzero; [lia | rewrite <- Hfirst; discriminate]).
      apply wp_bind. unfold operators. cbv iota beta.
      change ("-" =? "+")%char with false.
      change ("-" =? "-")%char with true. cbv iota.
      apply wp_bind, wp_get_cursor, wp_bind, wp_cursor_incr, wp_bind,
        wp_get_cursor, wp_bind, wp_read. simpl.
      rewrite wrap32_small by lia.
      destruct (char_at line (cursor f + 1) =? ">")%char eqn:Ea.
      * assert (cursor f + 1 < size line).
        { apply char_at_nonzero; [lia|]. apply Ascii.eqb_eq in Ea.
          rewrite Ea. discriminate. }
        apply wp_bind, wp_data_string, wp_ret.
        rewrite string_literal_other by reflexivity.
        apply wp_bind, wp_ret.
        rewrite number_or_word_other by reflexivity.
        apply wp_ret. simpl. rewrite wrap32_small by lia.
        split; [reflexivity|]. split; [reflexivity|].
        unfold lexeme_ok, width. simpl. rewrite Hcol, <- Hfirst, Ea.
        split; [|lia]. simpl.
        change (Pos.to_nat 2) with 2%nat.
        rewrite substring_step by (unfold size in *; lia).
        rewrite substring_step by (unfold size in *; lia).
        rewrite substring_zero, Z2Nat.id, <- Hfirst by lia.
        replace (Z.of_nat (S (Z.to_nat (cursor f)))) with (cursor f + 1)
          by lia.
        apply Ascii.eqb_eq in Ea. rewrite Ea. reflexivity.
      * apply wp_ret.
        rewrite string_literal_other by reflexivity.
        apply wp_bind, wp_ret.
        rewrite number_or_word_other by reflexivity.
        apply wp_ret. simpl. rewrite wrap32_small by lia.
        split; [reflexivity|]. split; [reflexivity|].
        unfold lexeme_ok, width. simpl. rewrite Hcol, <- Hfirst, Ea.
        split; [reflexivity | lia].
    + destruct (isalnum first) eqn:Ea.
      * destruct (operators_other line first pos
                    (separators first pos
                       (brackets first pos
                          (mkToken TokenType.None pos EmptyString))) Em)
          as [t [-> _]].
        apply wp_bind, wp_ret.
        rewrite string_literal_other by assumption.
        apply wp_bind, wp_ret.
        apply number_or_word_lexeme; assumption.
      * destruct (single_character_lexeme first pos) as [t [-> [P [L W]]]];
          try assumption; [congruence|].
        apply wp_bind, wp_ret.
        rewrite string_literal_other by assumption.
        apply wp_bind, wp_ret.
        rewrite number_or_word_other by assumption.
        apply wp_ret. rewrite wrap32_small by lia.
        split; [reflexivity|]. split; [assumption|].
        split; [assumption | lia].
Qed.

(** One step appends one token: the lexeme at the character it classifies;
    and it leaves the cursor behind that lexeme. *)
Lemma scan_step_lexeme fuel f :
  0 <= cursor f < size line ->
  wp (scan_step line fuel) f
     (fun _ f' =>
        exists t,
          m_Tokens f' = m_Tokens f ++ [t] /\
          Pos t = mkPosition (m_Filename f) (classified_at line (cursor f))
                             (m_Row f) /\
          lexeme_ok line t = true /\
          cursor f' = Column (Pos t) + width t)
     (fun f' => m_Tokens f' = m_Tokens f).
Proof.
  intros Hc. unfold scan_step, classified_at.
  apply wp_bind, wp_currentPos, wp_bind, wp_get_cursor, wp_bind, wp_read,
    wp_bind.
  assert (Hrest : forall h,
             m_Tokens h = m_Tokens f -> m_Filename h = m_Filename f ->
             m_Row h = m_Row f -> 0 <= cursor h <= size line ->
             let pos := mkPosition (m_Filename h) (cursor h) (m_Row h) in
             wp (token <- classify line fuel (char_at line (cursor h)) pos
                            (mkToken TokenType.None pos EmptyString) ;;
                 push_back token ;; cursor_incr) h
                (fun _ f' =>
                   exists t,
                     m_Tokens f' = m_Tokens f ++ [t] /\
                     Pos t = mkPosition (m_Filename f) (cursor h) (m_Row f) /\
                     lexeme_ok line t = true /\
                     cursor f' = Column (Pos t) + width t)
                (fun f' => m_Tokens f' = m_Tokens f)).
  { intros h Th Fh Rh Ch pos. apply wp_bind.
    eapply wp_mono; [apply classify_lexeme; auto | |].
    - intros t k [Tk [Pk [Lk Ck]]].
      apply wp_bind, wp_push_back, wp_cursor_incr. simpl.
      exists t. rewrite Tk, Th, Pk, Ck. subst pos. simpl.
      rewrite Fh, Rh. auto.
    - intros k Tk. congruence. }
  unfold skip_space.
  destruct (isspace (char_at line (cursor f))).
  - apply wp_bind, wp_cursor_incr, wp_bind, wp_get_cursor, wp_bind, wp_read,
      wp_bind, wp_currentPos, wp_ret. simpl.
    rewrite wrap32_small by lia.
    match goal with |- wp _ ?h _ _ =>
      pose proof (Hrest h eq_refl eq_refl eq_refl) as W
    end.
    simpl in W. apply W. lia.
  - apply wp_ret. simpl.
    match goal with |- wp _ ?h _ _ =>
      pose proof (Hrest h eq_refl eq_refl eq_refl) as W
    end.
    simpl in W. apply W. lia.
Qed.

Lemma scan_loop_S fuel f :
  scan_loop line (S fuel) f =
  if cursor f <? size line
  then match scan_step line (S fuel) f with
       | Done _ g => scan_loop line fuel g
       | OutOfFuel g => OutOfFuel g
       end
  else Done tt f.
Proof.
  cbn [scan_loop]. unfold valid, get_cursor, ret, bind.
  destruct (cursor f <? size line); reflexivity.
Qed.

(** The loop appends the lexemes of consecutive steps. *)
Lemma scan_loop_lexemes fuel : forall f,
  0 <= cursor f <= size line + 1 ->
  exists new c',
    m_Tokens (frame_of (scan_loop line fuel f)) = m_Tokens f ++ new /\
    lexemes line (m_Filename f) (m_Row f) (cursor f) new c' /\
    (forall g, scan_loop line fuel f = Done tt g ->
               c' = cursor g /\ size line <= cursor g <= size line + 1).
Proof.
  induction fuel as [|fuel IH]; intros f Hc.
  - exists [], (cursor f). simpl. rewrite app_nil_r.
    split; [reflexivity|]. split; [constructor | discriminate].
  - rewrite scan_loop_S.
    destruct (cursor f <? size line) eqn:Ev.
    + apply Z.ltb_lt in Ev.
      pose proof (scan_step_lexeme (S fuel) f ltac:(lia)) as L.
      pose proof (scan_step_wp line Hsize (S fuel) f ltac:(lia)) as W.
      pose proof (appends_scan_step line (S fuel) f) as A.
      unfold wp in L, W.
      destruct (scan_step line (S fuel) f) as [[] g|g].
      * destruct L as [t [Tg [Pt [Lt Cg]]]]. destruct W as [_ Bg].
        destruct A as [Fg [Rg _]]. simpl in Fg, Rg.
        destruct (IH g ltac:(lia)) as [new [c' [Tn [Ln Dn]]]].
        exists (t :: new), c'. rewrite Tn, Tg, <- app_assoc.
        split; [reflexivity|]. split; [|exact Dn].
        econstructor; eauto; [lia|].
        rewrite <- Cg, <- Fg, <- Rg. exact Ln.
      * exists [], (cursor f). simpl. rewrite L, app_nil_r.
        split; [reflexivity|]. split; [constructor | discriminate].
    + apply Z.ltb_ge in Ev.
      exists [], (cursor f). simpl. rewrite app_nil_r.
      split; [reflexivity|]. split; [constructor|].
      intros g E. injection E as <-. split; [reflexivity | lia].
Qed.

End Lexemes.

(** ** Chains of lexemes *)

Lemma classified_at_bounds line c :
  c <= classified_at line c <= c + 1.
Proof. unfold classified_at. destruct (isspace _); lia. Qed.

Lemma width_nonneg t : 0 <= width t.
Proof. unfold width. destruct (Type_ t); lia. Qed.

Lemma substring_beyond s : forall n m,
  (String.length s <= n)%nat -> substring n m s = EmptyString.
Proof.
  induction s as [|a s IH]; intros [|n] m H; simpl in *;
    try (destruct m; reflexivity); try lia.
  apply IH. lia.
Qed.

Lemma run_ok_length P line c v :
  run_ok P line c v = true -> (0 < String.length v)%nat.
Proof.
  unfold run_ok. intros H. apply andb_true_iff in H. destruct H as [_ H].
  now apply Nat.ltb_lt in H.
Qed.

Lemma run_ok_substring P line c v :
  run_ok P line c v = true ->
  substring (Z.to_nat c) (String.length v) line = v.
Proof.
  unfold run_ok. intros H.
  apply andb_true_iff in H. destruct H as [H _].
  apply andb_true_iff in H. destruct H as [H _].
  apply andb_true_iff in H. destruct H as [H _].
  now apply String.eqb_eq in H.
Qed.

Lemma run_ok_first P line c v :
  run_ok P line c v = true -> 0 <= c -> P (char_at line c) = true.
Proof.
  intros H Hc.
  pose proof (run_ok_length _ _ _ _ H) as Hl.
  pose proof (run_ok_substring _ _ _ _ H) as Hs.
  unfold run_ok in H.
  apply andb_true_iff in H. destruct H as [H _].
  apply andb_true_iff in H. destruct H as [H _].
  apply andb_true_iff in H. destruct H as [_ Hall].
  destruct v as [|a v]; [simpl in Hl; lia|]. simpl in Hs, Hall.
  apply andb_true_iff in Hall. destruct Hall as [Pa _].
  destruct (le_lt_dec (String.length line) (Z.to_nat c)) as [Hge|Hlt].
  - rewrite substring_beyond in Hs by assumption. discriminate.
  - rewrite substring_step in Hs by assumption.
    rewrite Z2Nat.id in Hs by assumption. congruence.
Qed.

Lemma run_ok_end P line c v :
  run_ok P line c v = true ->
  P (char_at line (c + Z.of_nat (String.length v))) = false.
Proof.
  unfold run_ok. intros H.
  apply andb_true_iff in H. destruct H as [H _].
  apply andb_true_iff in H. destruct H as [_ H].
  now apply negb_true_iff in H.
Qed.

Ltac split_andb H :=
  repeat match type of H with
         | (_ && _)%bool = true =>
             let H' := fresh H in
             apply andb_true_iff in H; destruct H as [H H']
         end.

(** On a double quote the only lexeme is the [String] token. *)
Lemma lexeme_ok_quote line t :
  lexeme_ok line t = true -> 0 <= Column (Pos t) ->
  char_at line (Column (Pos t)) = dquote ->
  Type_ t = TokenType.String.
Proof.
  unfold lexeme_ok. intros H Hc Hq. rewrite Hq in H.
  destruct (Type_ t); try reflexivity; try (cbn in H; discriminate H).
  apply run_ok_first in H; [|assumption]. rewrite Hq in H. discriminate.
Qed.

Lemma lexeme_ok_String line t :
  lexeme_ok line t = true -> Type_ t = TokenType.String ->
  char_at line (Column (Pos t)) = dquote /\ Value t = EmptyString.
Proof.
  unfold lexeme_ok. intros H E. rewrite E in H.
  apply andb_true_iff in H. destruct H as [H1 H2].
  apply Ascii.eqb_eq in H1. apply String.eqb_eq in H2. auto.
Qed.

(** Every lexeme but the [String] token moves the cursor forward. *)
Lemma lexeme_width_pos line t :
  lexeme_ok line t = true -> Type_ t <> TokenType.String -> 1 <= width t.
Proof.
  unfold lexeme_ok, width. intros H Hn.
  destruct (Type_ t); try lia; try contradiction.
  - split_andb H. apply run_ok_length in H1. lia.
  - split_andb H. apply run_ok_length in H1. lia.
  - apply run_ok_length in H. lia.
Qed.

(** The value of a lexeme is read off the line at its column. *)
Lemma lexeme_value_substring line t :
  lexeme_ok line t = true -> 0 <= Column (Pos t) ->
  substring (Z.to_nat (Column (Pos t))) (String.length (Value t)) line =
  Value t.
Proof.
  unfold lexeme_ok. intros H Hc.
  assert (One : forall ch,
             ch <> Ascii.zero ->
             ((char_at line (Column (Pos t)) =? ch)%char
              && (Value t =? string1 ch)%string)%bool = true ->
             substring (Z.to_nat (Column (Pos t)))
                       (String.length (Value t)) line = Value t).
  { intros ch Hz H1. apply andb_true_iff in H1. destruct H1 as [H1 H2].
    apply Ascii.eqb_eq in H1. apply String.eqb_eq in H2. rewrite H2. simpl.
    assert (Column (Pos t) < size line)
      by (apply char_at_nonzero; [assumption | congruence]).
    rewrite substring_step by (unfold size in *; lia).
    rewrite substring_zero, Z2Nat.id, H1 by assumption. reflexivity. }
  destruct (Type_ t);
    try (apply One in H; [exact H | discriminate]).
  - split_andb H. apply String.eqb_eq in H0. rewrite H0.
    apply substring_zero.
  - split_andb H. now apply run_ok_substring in H1.
  - split_andb H. now apply run_ok_substring in H1.
  - split_andb H. apply Ascii.eqb_eq in H. apply Ascii.eqb_eq in H1.
    apply String.eqb_eq in H0. rewrite H0. simpl.
    assert (Column (Pos t) + 1 < size line)
      by (apply char_at_nonzero; [lia | rewrite H1; discriminate]).
    rewrite substring_step by (unfold size in *; lia).
    rewrite substring_step by (unfold size in *; lia).
    rewrite substring_zero, Z2Nat.id, H by assumption.
    replace (Z.of_nat (S (Z.to_nat (Column (Pos t)))))
      with (Column (Pos t) + 1) by lia.
    rewrite H1. reflexivity.
  - split_andb H. apply String.eqb_eq in H0. rewrite H0.
    apply substring_zero.
  - now apply run_ok_substring in H.
  - split_andb H. apply Ascii.eqb_eq in H. apply String.eqb_eq in H0.
    rewrite H0. simpl.
    assert (Column (Pos t) < size line)
      by (apply char_at_nonzero; [assumption | rewrite H; discriminate]).
    rewrite substring_step by (unfold size in *; lia).
    rewrite substring_zero, Z2Nat.id, H by assumption. reflexivity.
Qed.

Section Chains.

Variables line file : string.
Variable row : Z.

Lemma lexemes_tokens c ts c' :
  lexemes line file row c ts c' ->
  c <= c' /\
  Forall (fun t => Filename (Pos t) = file /\ Row (Pos t) = row /\
                   c <= Column (Pos t) /\ lexeme_ok line t = true) ts.
Proof.
  induction 1 as [c|c t ts c' Hc Hp Hl Hts [IHc IH]].
  - split; [lia | constructor].
  - pose proof (classified_at_bounds line c) as B.
    pose proof (width_nonneg t) as W.
    assert (Hcol : Column (Pos t) = classified_at line c)
      by (rewrite Hp; reflexivity).
    split; [lia|]. constructor.
    + rewrite Hp. simpl. repeat split; auto; lia.
    + eapply Forall_impl; [|exact IH].
      intros t' [F [R [C L]]]. repeat split; auto. lia.
Qed.

Lemma lexemes_sorted c ts c' :
  lexemes line file row c ts c' -> StronglySorted Z.le (columns ts).
Proof.
  induction 1 as [c|c t ts c' Hc Hp Hl Hts IH]; simpl; constructor;
    [exact IH|].
  apply lexemes_tokens in Hts. destruct Hts as [_ F].
  pose proof (width_nonneg t) as W.
  unfold columns. apply Forall_map.
  eapply Forall_impl; [|exact F]. intros t' [_ [_ [C _]]]. lia.
Qed.

Lemma lexemes_stuck c ts c' :
  lexemes line file row c ts c' -> char_at line c = dquote -> c' = c.
Proof.
  induction 1 as [c|c t ts c' Hc Hp Hl Hts IH]; intros Hq; [reflexivity|].
  assert (Hcol : Column (Pos t) = c).
  { rewrite Hp. simpl. unfold classified_at. rewrite Hq. reflexivity. }
  assert (Ht : Type_ t = TokenType.String)
    by (apply (lexeme_ok_quote line); [assumption | lia | congruence]).
  assert (Hw : width t = 0) by (unfold width; rewrite Ht; reflexivity).
  rewrite Hcol, Hw, Z.add_0_r in IH. auto.
Qed.

Lemma lexemes_no_String c ts c' :
  lexemes line file row c ts c' -> size line <= c' ->
  Forall (fun t => Type_ t <> TokenType.String) ts.
Proof.
  induction 1 as [c|c t ts c' Hc Hp Hl Hts IH]; intros Hend;
    constructor; auto.
  intros Ht.
  destruct (lexeme_ok_String line t Hl Ht) as [Hq _].
  pose proof (classified_at_bounds line c) as B.
  assert (Hcol : Column (Pos t) = classified_at line c)
    by (rewrite Hp; reflexivity).
  assert (Column (Pos t) < size line)
    by (apply char_at_nonzero; [lia | rewrite Hq; discriminate]).
  assert (Hw : width t = 0) by (unfold width; rewrite Ht; reflexivity).
  rewrite Hw, Z.add_0_r in Hts.
  apply lexemes_stuck in Hts; [lia | exact Hq].
Qed.

Lemma lexemes_strict c ts c' :
  lexemes line file row c ts c' ->
  Forall (fun t => Type_ t <> TokenType.String) ts ->
  StronglySorted Z.lt (columns ts) /\
  Z.of_nat (List.length ts) <= Z.max 0 (size line - c).
Proof.
  induction 1 as [c|c t ts c' Hc Hp Hl Hts IH]; intros Hn; simpl.
  - split; [constructor | lia].
  - inversion Hn as [|? ? Ht Hrest]; subst.
    destruct (IH Hrest) as [S L].
    pose proof (classified_at_bounds line c) as B.
    pose proof (lexeme_width_pos line t Hl Ht) as W.
    assert (Hcol : Column (Pos t) = classified_at line c)
      by (rewrite Hp; reflexivity).
    split.
    + constructor; [exact S|].
      apply lexemes_tokens in Hts. destruct Hts as [_ F].
      unfold columns. apply Forall_map.
      eapply Forall_impl; [|exact F]. intros t' [_ [_ [C _]]]. lia.
    + lia.
Qed.

End Chains.

(** ** The tokens of a line *)

(** The chain of lexemes of one call. *)
Lemma ParseLine_chain line fuel f :
  size line < UINT32_MAX ->
  exists c',
    lexemes line (m_Filename f) (m_Row f) 0
            (appended f (frame_of (ParseLine line fuel f))) c' /\
    (forall f', ParseLine line fuel f = Done tt f' ->
                c' = cursor f' /\ size line <= cursor f' <= size line + 1).
Proof.
  intros Hsize. rewrite ParseLine_unfold.
  destruct (scan_loop_lexemes line Hsize fuel (enter f))
    as [new [c' [T [L D]]]]; [simpl; unfold size; lia|].
  exists c'. simpl in *.
  destruct (scan_loop line fuel (enter f)) as [[] g|g]; simpl in *;
    rewrite (appended_app f _ new) by exact T.
  - split; [exact L|]. intros f' E. injection E as <-. simpl.
    apply D. reflexivity.
  - split; [exact L | discriminate].
Qed.

(** The tokens that a call of [ParseLine] appends are the lexemes of
    consecutive steps that start at cursor 0: each token stands at the
    character its step classifies, its type and value are those the
    characters at its column call for, and the next step starts behind it.
    When the call returns, the last step has left the cursor at the end of
    the line or one behind. *)
Theorem ParseLine_lexemes line fuel f :
  size line < UINT32_MAX ->
  exists c',
    lexemes line (m_Filename f) (m_Row f) 0
            (appended f (frame_of (ParseLine line fuel f))) c' /\
    (forall f', ParseLine line fuel f = Done tt f' ->
                c' = cursor f' /\ size line <= cursor f' <= size line + 1).
Proof.
  intros Hsize. rewrite ParseLine_unfold.
  destruct (scan_loop_lexemes line Hsize fuel (enter f))
    as [new [c' [T [L D]]]]; [simpl; unfold size; lia|].
  exists c'. simpl in *.
  destruct (scan_loop line fuel (enter f)) as [[] g|g]; simpl in *;
    rewrite (appended_app f _ new) by exact T.
  - split; [exact L|]. intros f' E. injection E as <-. simpl.
    apply D. reflexivity.
  - split; [exact L | discriminate].
Qed.

Lemma ParseLine_lexemes_witness :
  exists c',
    lexemes "x -> 12;" "main.vs" 0 0
            (appended (Lexer "main.vs")
               (frame_of (ParseLine "x -> 12;" 9 (Lexer "main.vs")))) c' /\
    (forall f', ParseLine "x -> 12;" 9 (Lexer "main.vs") = Done tt f' ->
                c' = cursor f' /\
                size "x -> 12;" <= cursor f' <= size "x -> 12;" + 1).
Proof.
  apply (ParseLine_lexemes "x -> 12;" 9 (Lexer "main.vs")). reflexivity.
Defined.

(** The value of every token that [ParseLine] appends is the piece of the
    line that starts at the column of the token and has the length of the
    value. *)
Theorem token_values_from_line line fuel f :
  size line < UINT32_MAX ->
  Forall (fun t =>
            substring (Z.to_nat (Column (Pos t)))
                      (String.length (Value t)) line = Value t)
         (appended f (frame_of (ParseLine line fuel f))).
Proof.
  intros Hsize.
  destruct (ParseLine_chain line fuel f Hsize) as [c' [L _]].
  apply lexemes_tokens in L. destruct L as [_ F].
  eapply Forall_impl; [|exact F].
  intros t [_ [_ [C L]]]. now apply lexeme_value_substring.
Qed.

Lemma token_values_from_line_witness :
  Forall (fun t =>
            substring (Z.to_nat (Column (Pos t)))
                      (String.length (Value t)) "fn f(a) -> b" = Value t)
         (appended (Lexer "main.vs")
            (frame_of (ParseLine "fn f(a) -> b" 14 (Lexer "main.vs")))).
Proof.
  apply (token_values_from_line "fn f(a) -> b" 14 (Lexer "main.vs")).
  reflexivity.
Defined.

(** Every token of type [String] that [ParseLine] appends stands on a
    double quote and has the empty value: the code never produces a string
    token with a body. *)
Theorem String_tokens_are_empty line fuel f :
  size line < UINT32_MAX ->
  Forall (fun t =>
            Type_ t = TokenType.String ->
            char_at line (Column (Pos t)) = dquote /\
            Value t = EmptyString)
         (appended f (frame_of (ParseLine line fuel f))).
Proof.
  intros Hsize.
  destruct (ParseLine_chain line fuel f Hsize) as [c' [L _]].
  apply lexemes_tokens in L. destruct L as [_ F].
  eapply Forall_impl; [|exact F].
  intros t [_ [_ [_ L]]] Ht. now apply lexeme_ok_String.
Qed.

Lemma String_tokens_are_empty_witness :
  Forall (fun t =>
            Type_ t = TokenType.String ->
            char_at quoted_hello (Column (Pos t)) = dquote /\
            Value t = EmptyString)
         (appended (Lexer "main.vs")
            (frame_of (ParseLine quoted_hello 5 (Lexer "main.vs")))).
Proof.
  apply (String_tokens_are_empty quoted_hello 5 (Lexer "main.vs")).
  reflexivity.
Defined.

(** The tokens that [ParseLine] appends are in the order of their columns:
    the columns never decrease, whether the call returns or not. *)
Theorem token_columns_sorted line fuel f :
  size line < UINT32_MAX ->
  StronglySorted Z.le
    (columns (appended f (frame_of (ParseLine line fuel f)))).
Proof.
  intros Hsize.
  destruct (ParseLine_chain line fuel f Hsize) as [c' [L _]].
  eapply lexemes_sorted. exact L.
Qed.

Lemma token_columns_sorted_witness :
  StronglySorted Z.le
    (columns (appended (Lexer "main.vs")
                (frame_of (ParseLine "a = b + 1;" 12 (Lexer "main.vs"))))).
Proof.
  apply (token_columns_sorted "a = b + 1;" 12 (Lexer "main.vs")).
  reflexivity.
Defined.

(** When a call of [ParseLine] returns, it has appended no token of type
    [String], the columns of the tokens it has appended increase strictly,
    and there are at most as many of them as the line has characters. *)
Theorem returned_scan_tokens line fuel f f' :
  size line < UINT32_MAX ->
  ParseLine line fuel f = Done tt f' ->
  Forall (fun t => Type_ t <> TokenType.String) (appended f f') /\
  StronglySorted Z.lt (columns (appended f f')) /\
  Z.of_nat (List.length (appended f f')) <= size line.
Proof.
  intros Hsize E.
  destruct (ParseLine_chain line fuel f Hsize) as [c' [L D]].
  rewrite E in L. simpl in L. destruct (D f' E) as [-> B].
  pose proof (lexemes_no_String _ _ _ _ _ _ L ltac:(lia)) as N.
  destruct (lexemes_strict _ _ _ _ _ _ L N) as [S Len].
  unfold size in *. split; [exact N|]. split; [exact S | lia].
Qed.

Lemma returned_scan_tokens_witness :
  Forall (fun t => Type_ t <> TokenType.String)
         (appended (Lexer "main.vs") (frame_of (ParseLine "a-b c" 7 (Lexer "main.vs")))) /\
  StronglySorted Z.lt
    (columns (appended (Lexer "main.vs")
                (frame_of (ParseLine "a-b c" 7 (Lexer "main.vs"))))) /\
  Z.of_nat (List.length
              (appended (Lexer "main.vs")
                 (frame_of (ParseLine "a-b c" 7 (Lexer "main.vs")))))
    <= size "a-b c".
Proof.
  apply (returned_scan_tokens "a-b c" 7 (Lexer "main.vs")
           (frame_of (ParseLine "a-b c" 7 (Lexer "main.vs"))));
    [reflexivity | vm_compute; reflexivity].
Defined.

(** ** Independence from the state *)

Lemma stable_bind {A B} (m : M A) (k : A -> M B) :
  stable m -> (forall a, stable (k a)) -> stable (bind m k).
Proof.
  intros Hm Hk toks out rs f. unfold bind. rewrite Hm.
  destruct (m f) as [a g|g]; simpl; [apply Hk | reflexivity].
Qed.

Lemma stable_ret {A} (a : A) : stable (ret a).
Proof. intros toks out rs f. reflexivity. Qed.

Lemma stable_out_of_fuel {A} : stable (@out_of_fuel A).
Proof. intros toks out rs f. reflexivity. Qed.

Lemma stable_get_cursor : stable get_cursor.
Proof. intros toks out rs f. reflexivity. Qed.

Lemma stable_set_cursor c : stable (set_cursor c).
Proof. intros toks out rs f. reflexivity. Qed.

Lemma stable_currentPos : stable currentPos.
Proof. intros toks out rs f. reflexivity. Qed.

Lemma stable_row_incr : stable row_incr.
Proof. intros toks out rs f. reflexivity. Qed.

Lemma stable_push_back t : stable (push_back t).
Proof.
  intros toks out rs f. unfold push_back, rebase. simpl.
  rewrite app_assoc. reflexivity.
Qed.

Lemma stable_print s : stable (print s).
Proof.
  intros toks out rs f. unfold print, rebase. simpl.
  rewrite string_append_assoc. reflexivity.
Qed.

Lemma stable_log_reads rs : stable (log_reads rs).
Proof.
  intros toks out rs' f. unfold log_reads, rebase. simpl.
  rewrite app_assoc. reflexivity.
Qed.

Create HintDb stable.
#[local] Hint Resolve stable_ret stable_out_of_fuel stable_get_cursor
  stable_set_cursor stable_currentPos stable_row_incr stable_push_back
  stable_print stable_log_reads : stable.

Ltac stable_step :=
  repeat first
    [ apply stable_bind; [|intros ?]
    | match goal with
      | |- stable (if ?b then _ else _) => destruct b
      end
    | solve [auto with stable] ].

Section Stable.

Variable line : string.

Lemma stable_cursor_incr : stable cursor_incr.
Proof. unfold cursor_incr. stable_step. Qed.

Lemma stable_cursor_decr : stable cursor_decr.
Proof. unfold cursor_decr. stable_step. Qed.

Lemma stable_valid : stable (valid line).
Proof. unfold valid. stable_step. Qed.

Lemma stable_read site i : stable (read line site i).
Proof. unfold read. stable_step. Qed.

Lemma stable_data_string site start n :
  stable (data_string line site start n).
Proof. unfold data_string. stable_step. Qed.

Lemma stable_Expected type msg pos : stable (Expected type msg pos).
Proof. unfold Expected. stable_step. Qed.

Hint Resolve stable_cursor_incr stable_cursor_decr stable_valid
  stable_read stable_data_string stable_Expected : stable.

Lemma stable_while_alnum_or_underscore sa su fuel :
  stable (while_alnum_or_underscore line sa su fuel).
Proof.
  induction fuel as [|fuel IH]; cbn [while_alnum_or_underscore];
    stable_step.
Qed.

Lemma stable_while_digit fuel : stable (while_digit line fuel).
Proof.
  induction fuel as [|fuel IH]; cbn [while_digit]; stable_step.
Qed.

Hint Resolve stable_while_alnum_or_underscore stable_while_digit : stable.

Lemma stable_scan_step fuel : stable (scan_step line fuel).
Proof.
  unfold scan_step, skip_space, classify, operators, string_literal,
    number_or_word.
  stable_step.
Qed.

Lemma stable_scan_loop fuel : stable (scan_loop line fuel).
Proof.
  induction fuel as [|fuel IH]; cbn [scan_loop].
  - apply stable_out_of_fuel.
  - apply stable_bind; [apply stable_valid|].
    intros [|]; [|apply stable_ret].
    apply stable_bind; [apply stable_scan_step | intros _; exact IH].
Qed.

Lemma stable_ParseLine fuel : stable (ParseLine line fuel).
Proof.
  unfold ParseLine.
  apply stable_bind; [apply stable_set_cursor | intros _].
  apply stable_bind; [apply stable_scan_loop | intros _].
  apply stable_row_incr.
Qed.

End Stable.

Lemma string_append_nil_r (a : string) : (a ++ EmptyString)%string = a.
Proof. induction a as [|x a IH]; simpl; [|rewrite IH]; reflexivity. Qed.

Lemma ParseLine_from_fresh line fuel f :
  ParseLine line fuel f =
  map_frame (rebase (m_Tokens f) (cout f) (reads f))
            (ParseLine line fuel (fresh (m_Filename f) (m_Row f))).
Proof.
  rewrite <- stable_ParseLine.
  rewrite !ParseLine_unfold. unfold enter, rebase, fresh. simpl.
  rewrite !app_nil_r, string_append_nil_r. reflexivity.
Qed.

Lemma ParseLine_tokens_fresh line fuel f :
  m_Tokens (frame_of (ParseLine line fuel f)) =
    m_Tokens f ++ line_tokens fuel (m_Filename f) (m_Row f) line /\
  ((exists f', ParseLine line fuel f = Done tt f') <->
   (exists g, ParseLine line fuel (fresh (m_Filename f) (m_Row f))
              = Done tt g)).
Proof.
  rewrite ParseLine_from_fresh. unfold line_tokens.
  destruct (ParseLine line fuel (fresh (m_Filename f) (m_Row f)))
    as [[] g|g]; simpl.
  - split; [reflexivity|]. split; intros _; eexists; reflexivity.
  - split; [reflexivity|]. split; intros [? H]; discriminate H.
Qed.

(** The tokens that a call of [ParseLine] appends, and whether it returns,
    depend only on the line, the file name and the row counter: not on the
    tokens already in the sequence, nor on what was printed or read
    before. *)
Theorem ParseLine_tokens_independent line fuel f :
  m_Tokens (frame_of (ParseLine line fuel f)) =
    m_Tokens f ++ line_tokens fuel (m_Filename f) (m_Row f) line /\
  ((exists f', ParseLine line fuel f = Done tt f') <->
   (exists g, ParseLine line fuel (fresh (m_Filename f) (m_Row f))
              = Done tt g)).
Proof.
  rewrite ParseLine_from_fresh. unfold line_tokens.
  destruct (ParseLine line fuel (fresh (m_Filename f) (m_Row f)))
    as [[] g|g]; simpl.
  - split; [reflexivity|]. split; intros _; eexists; reflexivity.
  - split; [reflexivity|]. split; intros [? H]; discriminate H.
Qed.

(** ** Lines without a double quote, and the whole file *)

Lemma get_forallb (P : ascii -> bool) line :
  forallb P (list_ascii_of_string line) = true ->
  forall n c, String.get n line = Some c -> P c = true.
Proof.
  induction line as [|a line IH]; simpl; intros H n c E; [discriminate|].
  apply andb_true_iff in H. destruct H as [Ha Hl].
  destruct n as [|n]; [congruence | eauto].
Qed.

Lemma char_at_forallb (P : ascii -> bool) line i :
  forallb P (list_ascii_of_string line) = true ->
  0 <= i < size line -> P (char_at line i) = true.
Proof.
  intros H Hi. unfold char_at.
  destruct (String.get (Z.to_nat i) line) as [c|] eqn:E.
  - eapply get_forallb; eassumption.
  - apply get_none_iff in E. unfold size in Hi. lia.
Qed.

Lemma no_quote_char_at line :
  no_quote line = true -> forall i, char_at line i <> dquote.
Proof.
  intros H i Hq. unfold char_at in Hq.
  destruct (String.get (Z.to_nat i) line) as [c|] eqn:E; [|discriminate].
  apply (get_forallb _ _ H) in E. rewrite Hq in E. discriminate.
Qed.

(** On every line without a double quote, [ParseLine] returns: fuel for
    two rounds more than the line has characters is enough. *)
Theorem ParseLine_returns_if_no_quote line fuel f :
  size line < UINT32_MAX ->
  no_quote line = true ->
  size line + 1 < Z.of_nat fuel ->
  exists f', ParseLine line fuel f = Done tt f'.
Proof.
  intros Hsize Hq Hfuel.
  apply ParseLine_returns_without_quote; auto.
  now apply no_quote_char_at.
Qed.

Lemma ParseLine_returns_if_no_quote_witness :
  exists f', ParseLine "fn add(a: int) -> int { return a + 1; }" 41
                       (Lexer "main.vs") = Done tt f'.
Proof.
  apply (ParseLine_returns_if_no_quote
           "fn add(a: int) -> int { return a + 1; }" 41 (Lexer "main.vs"));
    reflexivity.
Defined.

(** On every line whose first character is a double quote, [ParseLine]
    does not return, whatever the fuel and the length of the line; each
    round appends one more token of type [String], at column 0 and with
    the empty value, and the row counter stays as it was. *)
Theorem ParseLine_never_returns_on_leading_quote line fuel f :
  char_at line 0 = dquote ->
  exists g,
    ParseLine line fuel f = OutOfFuel g /\
    m_Tokens g =
      m_Tokens f ++
      repeat (tok TokenType.String (m_Filename f) (m_Row f) 0 EmptyString)
             fuel /\
    List.length (m_Tokens g) = (List.length (m_Tokens f) + fuel)%nat /\
    m_Row g = m_Row f.
Proof.
  intros Hq.
  destruct (ParseLine_leading_quote line fuel f Hq) as [g [E [T [R _]]]].
  exists g. rewrite T, length_app, repeat_length. auto.
Qed.

Lemma ParseLine_never_returns_on_leading_quote_witness :
  exists g,
    ParseLine (String dquote "a + b") 20 (Lexer "main.vs") = OutOfFuel g /\
    m_Tokens g =
      [] ++ repeat (tok TokenType.String "main.vs" 0 0 EmptyString) 20 /\
    List.length (m_Tokens g) = (0 + 20)%nat /\
    m_Row g = 0.
Proof.
  apply (ParseLine_never_returns_on_leading_quote
           (String dquote "a + b") 20 (Lexer "main.vs")).
  reflexivity.
Defined.

(** The scan of a file never writes to [std::cout]: the one call of
    [Expected] in [ParseLine] is never reached. *)
Theorem ParseLines_never_prints fuel : forall lines f,
  Forall (fun line => size line < UINT32_MAX) lines ->
  cout (frame_of (ParseLines fuel lines f)) = cout f.
Proof.
  induction lines as [|line rest IH]; intros f Hsz; [reflexivity|].
  inversion Hsz as [|? ? Hline Hrest]; subst.
  cbn [ParseLines]. unfold bind.
  pose proof (ParseLine_safe line fuel f Hline) as [_ [C _]].
  destruct (ParseLine line fuel f) as [[] g|g]; simpl in *; [|exact C].
  rewrite IH by assumption. exact C.
Qed.

Lemma ParseLines_never_prints_witness :
  cout (frame_of (ParseLines 9 ["a"; unterminated_hello; "b"]
                             (Lexer "main.vs"))) =
  cout (Lexer "main.vs").
Proof.
  apply (ParseLines_never_prints 9 ["a"; unterminated_hello; "b"]
           (Lexer "main.vs")).
  repeat constructor.
Defined.

(** When each line of a file makes [ParseLine] return, the scan of the
    file returns; the row counter has grown by the number of lines, and
    the token sequence has grown by the tokens of the lines, each line
    scanned on its own at its row, in the order of the lines. *)
Theorem ParseLines_concat fuel : forall lines f,
  (forall line, In line lines ->
                forall g, exists g', ParseLine line fuel g = Done tt g') ->
  0 <= m_Row f ->
  m_Row f + Z.of_nat (List.length lines) <= UINT32_MAX ->
  exists f',
    ParseLines fuel lines f = Done tt f' /\
    m_Row f' = m_Row f + Z.of_nat (List.length lines) /\
    m_Filename f' = m_Filename f /\
    m_Tokens f' =
      m_Tokens f ++ tokens_from fuel (m_Filename f) (m_Row f) lines.
Proof.
  induction lines as [|line rest IH]; intros f Hret Hrow Hlen.
  - exists f. simpl. rewrite app_nil_r, Z.add_0_r. auto.
  - cbn [ParseLines tokens_from]. unfold bind.
    destruct (Hret line (or_introl eq_refl) f) as [g E].
    destruct (ParseLine_tokens_fresh line fuel f) as [T _].
    destruct (ParseLine_done line fuel f g E) as [R [F _]].
    rewrite E in *. simpl in T.
    simpl List.length in Hlen.
    rewrite wrap32_small in R by lia.
    destruct (IH g) as [f' [E' [R' [F' T']]]].
    + intros l Hl. apply Hret. right. exact Hl.
    + lia.
    + lia.
    + exists f'. rewrite E', R', F', T', T, F, R, <- app_assoc.
      simpl List.length. repeat split; auto. lia.
Qed.

Lemma ParseLines_concat_witness :
  exists f',
    ParseLines 12 ["fn f()"; EmptyString; "return 1;"] (Lexer "main.vs")
    = Done tt f' /\
    m_Row f' = 0 + 3 /\
    m_Filename f' = "main.vs" /\
    m_Tokens f' =
      [] ++ tokens_from 12 "main.vs" 0
              ["fn f()"; EmptyString; "return 1;"].
Proof.
  apply (ParseLines_concat 12 ["fn f()"; EmptyString; "return 1;"]
           (Lexer "main.vs")).
  - intros line [<-|[<-|[<-|[]]]] g;
      apply ParseLine_returns_without_quote;
      try reflexivity; apply no_quote_char_at; reflexivity.
  - simpl; lia.
  - vm_compute; discriminate.
Defined.

(** ** Lines of one word or one number *)

Lemma length_substring_le s : forall n m,
  (String.length (substring n m s) <= String.length s)%nat.
Proof.
  induction s as [|a s IH]; intros [|n] [|m]; simpl; try lia.
  - specialize (IH 0%nat m). lia.
  - specialize (IH n 0%nat). lia.
  - specialize (IH n (S m)). lia.
Qed.

Lemma isalnum_not_space c : isalnum c = true -> isspace c = false.
Proof.
  destruct c as [[] [] [] [] [] [] [] []]; intros H;
    solve [reflexivity | discriminate H].
Qed.

(** A run from the start of a line made of such characters only is the
    whole line. *)
Lemma run_ok_whole_line P line v :
  forallb P (list_ascii_of_string line) = true ->
  run_ok P line 0 v = true -> v = line.
Proof.
  intros Hall H.
  pose proof (run_ok_substring _ _ _ _ H) as Hs.
  pose proof (run_ok_end _ _ _ _ H) as He.
  pose proof (length_substring_le line (Z.to_nat 0) (String.length v)) as Hle.
  rewrite Hs in Hle.
  destruct (Nat.eq_dec (String.length v) (String.length line)) as [E|Hne].
  - rewrite E in Hs. simpl in Hs. rewrite substring_all in Hs. auto.
  - rewrite char_at_forallb in He; [discriminate | assumption|].
    unfold size. lia.
Qed.

Lemma lexemes_at_end line file row c ts c' :
  lexemes line file row c ts c' -> size line <= c -> ts = [].
Proof. destruct 1; [reflexivity | lia]. Qed.

(** On a letter, the lexeme is an identifier or a keyword. *)
Lemma lexeme_ok_word line t :
  lexeme_ok line t = true -> 0 <= Column (Pos t) ->
  isalnum (char_at line (Column (Pos t))) = true ->
  isdigit (char_at line (Column (Pos t))) = false ->
  Type_ t = (if s_Keywords_contains (Value t)
             then TokenType.Keyword else TokenType.Ident) /\
  run_ok is_word_char line (Column (Pos t)) (Value t) = true.
Proof.
  unfold lexeme_ok. intros H Hc Ha Hd.
  assert (One : forall ch,
             isalnum ch = false ->
             ((char_at line (Column (Pos t)) =? ch)%char
              && (Value t =? string1 ch)%string)%bool = true -> False).
  { intros ch Hch H1. apply andb_true_iff in H1. destruct H1 as [H1 _].
    apply Ascii.eqb_eq in H1. congruence. }
  assert (Hm : matches_rule (char_at line (Column (Pos t))) = true)
    by (unfold matches_rule; rewrite Ha; apply orb_true_r).
  destruct (Type_ t);
    try (exfalso; apply One in H; [exact H | reflexivity]).
  - rewrite Hm in H. discriminate H.
  - split_andb H. rewrite H0. auto.
  - split_andb H. apply negb_true_iff in H0. rewrite H0. auto.
  - split_andb H. exfalso. apply Ascii.eqb_eq in H. rewrite H in Ha.
    discriminate Ha.
  - split_andb H. exfalso. apply Ascii.eqb_eq in H. rewrite H in Ha.
    discriminate Ha.
  - apply run_ok_first in H; [congruence | assumption].
  - split_andb H. exfalso. apply Ascii.eqb_eq in H. rewrite H in Ha.
    discriminate Ha.
Qed.

(** On a digit, the lexeme is a number. *)
Lemma lexeme_ok_digit line t :
  lexeme_ok line t = true ->
  isdigit (char_at line (Column (Pos t))) = true ->
  Type_ t = TokenType.Number /\
  run_ok isdigit line (Column (Pos t)) (Value t) = true.
Proof.
  unfold lexeme_ok. intros H Hd.
  pose proof (isdigit_isalnum _ Hd) as Ha.
  assert (One : forall ch,
             isalnum ch = false ->
             ((char_at line (Column (Pos t)) =? ch)%char
              && (Value t =? string1 ch)%string)%bool = true -> False).
  { intros ch Hch H1. apply andb_true_iff in H1. destruct H1 as [H1 _].
    apply Ascii.eqb_eq in H1. congruence. }
  assert (Hm : matches_rule (char_at line (Column (Pos t))) = true)
    by (unfold matches_rule; rewrite Ha; apply orb_true_r).
  destruct (Type_ t);
    try (exfalso; apply One in H; [exact H | reflexivity]).
  - rewrite Hm in H. discriminate H.
  - rewrite Ha, Hd in H. discriminate H.
  - rewrite Ha, Hd in H. discriminate H.
  - split_andb H. exfalso. apply Ascii.eqb_eq in H. rewrite H in Ha.
    discriminate Ha.
  - split_andb H. exfalso. apply Ascii.eqb_eq in H. rewrite H in Ha.
    discriminate Ha.
  - auto.
  - split_andb H. exfalso. apply Ascii.eqb_eq in H. rewrite H in Ha.
    discriminate Ha.
Qed.

Lemma word_chars_no_quote (P : ascii -> bool) line :
  P dquote = false ->
  forallb P (list_ascii_of_string line) = true ->
  forall i, char_at line i <> dquote.
Proof.
  intros Hp H i Hq. unfold char_at in Hq.
  destruct (String.get (Z.to_nat i) line) as [c|] eqn:E; [|discriminate].
  apply (get_forallb _ _ H) in E. congruence.
Qed.

(** The one token of a line that a single lexeme fills. *)
Lemma single_lexeme_line line fuel f (P : ascii -> bool) :
  size line < UINT32_MAX ->
  P dquote = false ->
  forallb P (list_ascii_of_string line) = true ->
  isalnum (char_at line 0) = true ->
  size line + 1 < Z.of_nat fuel ->
  exists f' t ts c',
    ParseLine line fuel f = Done tt f' /\
    m_Tokens f' = m_Tokens f ++ t :: ts /\
    Pos t = mkPosition (m_Filename f) 0 (m_Row f) /\
    lexeme_ok line t = true /\
    lexemes line (m_Filename f) (m_Row f) (0 + width t) ts c' /\
    size line <= c'.
Proof.
  intros Hsize Hp Hall Ha Hfuel.
  destruct (ParseLine_returns_without_quote line fuel f Hsize
              (word_chars_no_quote P line Hp Hall) Hfuel) as [f' E].
  destruct (ParseLine_chain line fuel f Hsize) as [c' [L D]].
  destruct (D f' E) as [-> B].
  destruct (ParseLine_done line fuel f f' E) as [_ [_ [new T]]].
  rewrite E in L. simpl in L. rewrite (appended_app f f' new T) in L.
  pose proof (isalnum_in_line line 0 ltac:(lia) Ha) as Hpos.
  inversion L as [|c t ts c'' Hc Hpt Hl Hts]; subst; [lia|].
  unfold classified_at in Hpt.
  rewrite (isalnum_not_space _ Ha) in Hpt.
  exists f', t, ts, (cursor f').
  rewrite Hpt in Hts. simpl in Hts.
  repeat split; auto; lia.
Qed.

(** The scan of a line that is one word (a letter followed by letters,
    digits and underscores) returns and appends exactly one token, at
    column 0, whose value is the whole line: a [Keyword] token when the
    word is in the keyword table, an [Ident] token otherwise. *)
Theorem word_line_one_token line fuel f :
  size line < UINT32_MAX ->
  is_word line = true ->
  size line + 1 < Z.of_nat fuel ->
  exists f',
    ParseLine line fuel f = Done tt f' /\
    m_Tokens f' =
      m_Tokens f ++
      [tok (if s_Keywords_contains line
            then TokenType.Keyword else TokenType.Ident)
           (m_Filename f) (m_Row f) 0 line].
Proof.
  unfold is_word. intros Hsize Hw Hfuel.
  apply andb_true_iff in Hw. destruct Hw as [Hw Hall].
  apply andb_true_iff in Hw. destruct Hw as [Ha Hd].
  apply negb_true_iff in Hd.
  destruct (single_lexeme_line line fuel f is_word_char Hsize eq_refl
              Hall Ha Hfuel)
    as [f' [t [ts [c' [E [T [Hp [Hl [Hts Hend]]]]]]]]].
  assert (Hcol : Column (Pos t) = 0) by (rewrite Hp; reflexivity).
  destruct (lexeme_ok_word line t Hl) as [Hty Hrun];
    rewrite ?Hcol; auto; try lia.
  rewrite Hcol in Hrun.
  pose proof (run_ok_whole_line _ _ _ Hall Hrun) as Hv.
  assert (Hwd : width t = size line).
  { unfold width. rewrite Hty, Hv.
    destruct (s_Keywords_contains line); reflexivity. }
  rewrite Hwd in Hts.
  apply lexemes_at_end in Hts; [|lia]. subst ts.
  exists f'. split; [exact E|]. rewrite T. f_equal. f_equal.
  destruct t as [ty pos v]. simpl in *. subst. reflexivity.
Qed.

Lemma word_line_one_token_witness :
  exists f',
    ParseLine "return" 8 (Lexer "main.vs") = Done tt f' /\
    m_Tokens f' =
      [] ++ [tok (if s_Keywords_contains "return"
                  then TokenType.Keyword else TokenType.Ident)
                 "main.vs" 0 0 "return"].
Proof.
  apply (word_line_one_token "return" 8 (Lexer "main.vs")); reflexivity.
Defined.

(** The scan of a line of digits returns and appends exactly one token,
    of type [Number], at column 0, whose value is the whole line. *)
Theorem digit_line_one_token line fuel f :
  size line < UINT32_MAX ->
  all_digits line = true -> 0 < size line ->
  size line + 1 < Z.of_nat fuel ->
  exists f',
    ParseLine line fuel f = Done tt f' /\
    m_Tokens f' =
      m_Tokens f ++
      [tok TokenType.Number (m_Filename f) (m_Row f) 0 line].
Proof.
  unfold all_digits. intros Hsize Hall Hpos Hfuel.
  assert (Hd : isdigit (char_at line 0) = true)
    by (apply char_at_forallb; [assumption | lia]).
  destruct (single_lexeme_line line fuel f isdigit Hsize eq_refl
              Hall (isdigit_isalnum _ Hd) Hfuel)
    as [f' [t [ts [c' [E [T [Hp [Hl [Hts Hend]]]]]]]]].
  assert (Hcol : Column (Pos t) = 0) by (rewrite Hp; reflexivity).
  destruct (lexeme_ok_digit line t Hl) as [Hty Hrun];
    rewrite ?Hcol; auto.
  rewrite Hcol in Hrun.
  pose proof (run_ok_whole_line _ _ _ Hall Hrun) as Hv.
  assert (Hwd : width t = size line)
    by (unfold width; rewrite Hty, Hv; reflexivity).
  rewrite Hwd in Hts.
  apply lexemes_at_end in Hts; [|lia]. subst ts.
  exists f'. split; [exact E|]. rewrite T. f_equal. f_equal.
  destruct t as [ty pos v]. simpl in *. subst. reflexivity.
Qed.

Lemma digit_line_one_token_witness :
  exists f',
    ParseLine "2026" 6 (Lexer "main.vs") = Done tt f' /\
    m_Tokens f' = [] ++ [tok TokenType.Number "main.vs" 0 0 "2026"].
Proof.
  apply (digit_line_one_token "2026" 6 (Lexer "main.vs")); reflexivity.
Defined.

(** ** The names of the token types *)

(** [TokenTypeToString] gives different types different names, so the type
    of a token can be read back from the token dump of [main]. *)
Theorem TokenTypeToString_injective a b :
  TokenTypeToString a = TokenTypeToString b -> a = b.
Proof. destruct a, b; intros H; solve [reflexivity | discriminate H]. Qed.

Lemma TokenTypeToString_injective_witness :
  TokenType.None = TokenType.None.
Proof.
  apply (TokenTypeToString_injective TokenType.None TokenType.None).
  reflexivity.
Defined.

(** ** When a scan returns *)

Section Returns.

Variable line : string.
Hypothesis Hsize : size line < UINT32_MAX.

(** With fuel for the rest of the line, a classification finishes, on a
    double quote as on any other character. *)
Lemma classify_returns fuel first pos token f :
  0 <= cursor f <= size line -> size line - cursor f < Z.of_nat fuel ->
  first = char_at line (cursor f) ->
  wp (classify line fuel first pos token) f
     (fun _ f' => cursor f <= wrap32 (cursor f' + 1) <= size line + 1)
     (fun _ => False).
Proof.
  intros Hc Hf Hfirst.
  destruct (first =? dquote)%char eqn:Eq.
  - apply Ascii.eqb_eq in Eq. rewrite Eq in *. clear Eq first.
    unfold classify.
    destruct (operators_other line dquote pos
                (separators dquote pos (brackets dquote pos token)) eq_refl)
      as [t [-> _]].
    apply wp_bind, wp_ret, wp_bind.
    destruct fuel as [|fuel]; [simpl in Hf; lia|].
    destruct (string_literal_quote line fuel pos t f (eq_sym Hfirst))
      as [rs [E _]].
    unfold wp at 1. rewrite E.
    rewrite number_or_word_other by reflexivity.
    apply wp_ret. simpl. rewrite wrap32_decr_incr by lia. lia.
  - apply Ascii.eqb_neq in Eq.
    eapply wp_mono;
      [apply (classify_done line Hsize); eassumption | | auto].
    intros t f' C. cbv beta in C. lia.
Qed.

Lemma scan_step_returns fuel f :
  0 <= cursor f < size line -> size line - cursor f < Z.of_nat fuel ->
  exists g, scan_step line fuel f = Done tt g.
Proof.
  intros Hc Hf.
  assert (W : wp (scan_step line fuel) f (fun _ _ => True)
                 (fun _ => False)).
  { unfold scan_step.
    apply wp_bind, wp_currentPos, wp_bind, wp_get_cursor, wp_bind, wp_read,
      wp_bind.
    assert (Hrest : forall h first pos token,
               cursor f <= cursor h <= size line ->
               first = char_at line (cursor h) ->
               wp (token <- classify line fuel first pos token ;;
                   push_back token ;; cursor_incr) h
                  (fun _ _ => True) (fun _ => False)).
    { intros h first pos token Ch Hfirst. apply wp_bind.
      eapply wp_mono; [apply classify_returns; eauto; lia | | auto].
      intros t k _. exact I. }
    unfold skip_space.
    destruct (isspace (char_at line (cursor f))).
    - apply wp_bind, wp_cursor_incr, wp_bind, wp_get_cursor, wp_bind,
        wp_read, wp_bind, wp_currentPos, wp_ret. simpl.
      rewrite wrap32_small by lia.
      apply Hrest; simpl; auto; lia.
    - apply wp_ret. simpl. apply Hrest; simpl; auto; lia. }
  unfold wp in W.
  destruct (scan_step line fuel f) as [[] g|g]; [eauto | contradiction].
Qed.

(** With fuel for the whole line, the loop ends or has appended a token of
    type [String]. *)
Lemma scan_loop_returns_or_String fuel : forall f,
  0 <= cursor f <= size line + 1 ->
  size line + 1 - cursor f < Z.of_nat fuel ->
  (exists g, scan_loop line fuel f = Done tt g) \/
  Exists (fun t => Type_ t = TokenType.String)
         (appended f (frame_of (scan_loop line fuel f))).
Proof.
  induction fuel as [|fuel IH]; intros f Hc Hf; [simpl in Hf; lia|].
  rewrite scan_loop_S.
  destruct (cursor f <? size line) eqn:Ev; [|left; eauto].
  apply Z.ltb_lt in Ev.
  destruct (scan_step_returns (S fuel) f ltac:(lia) ltac:(lia)) as [g E].
  pose proof (scan_step_lexeme line Hsize (S fuel) f ltac:(lia)) as L.
  pose proof (scan_step_wp line Hsize (S fuel) f ltac:(lia)) as W.
  unfold wp in L, W. rewrite E in *.
  destruct L as [t [Tg [Pt [Lt Cg]]]]. destruct W as [_ Bg].
  pose proof (appends_scan_loop line fuel g) as [_ [_ [more Tm]]].
  assert (Happ : appended f (frame_of (scan_loop line fuel g)) = t :: more).
  { apply appended_app. rewrite Tm, Tg, <- app_assoc. reflexivity. }
  pose proof (classified_at_bounds line (cursor f)) as B.
  assert (Hcol : Column (Pos t) = classified_at line (cursor f))
    by (rewrite Pt; reflexivity).
  assert (Hdec : Type_ t = TokenType.String \/ Type_ t <> TokenType.String)
    by (destruct (Type_ t); (now left) || (right; discriminate)).
  destruct Hdec as [Hs|Hn].
  - right. rewrite Happ. constructor. exact Hs.
  - pose proof (lexeme_width_pos line t Lt Hn) as Wt.
    destruct (IH g ltac:(lia) ltac:(lia)) as [[h Eh]|Ex].
    + left. eauto.
    + right. rewrite Happ. apply Exists_cons_tl.
      rewrite (appended_app g _ more Tm) in Ex. exact Ex.
Qed.

End Returns.

(** With fuel for two rounds more than the line has characters, a call of
    [ParseLine] returns exactly when none of the tokens it appends has type
    [String], that is, when no step of the scan classifies a double
    quote. *)
Theorem ParseLine_returns_iff_no_String line fuel f :
  size line < UINT32_MAX ->
  size line + 1 < Z.of_nat fuel ->
  (exists f', ParseLine line fuel f = Done tt f') <->
  Forall (fun t => Type_ t <> TokenType.String)
         (appended f (frame_of (ParseLine line fuel f))).
Proof.
  intros Hsize Hfuel. split.
  - intros [f' E].
    destruct (ParseLine_chain line fuel f Hsize) as [c' [L D]].
    destruct (D f' E) as [-> B].
    eapply lexemes_no_String; [exact L | lia].
  - intros Hall. rewrite ParseLine_unfold in *.
    destruct (scan_loop_returns_or_String line Hsize fuel (enter f))
      as [[g E]|Ex]; [simpl; unfold size; lia | simpl; lia | |].
    + rewrite E. eauto.
    + exfalso.
      assert (Happ : appended f (frame_of
                        match scan_loop line fuel (enter f) with
                        | Done _ g => Done tt (leave g)
                        | OutOfFuel g => @OutOfFuel unit g
                        end) =
                     appended (enter f)
                       (frame_of (scan_loop line fuel (enter f))))
        by (destruct (scan_loop line fuel (enter f)); reflexivity).
      rewrite Happ in Hall.
      apply Exists_exists in Ex. destruct Ex as [t [Hin Ht]].
      rewrite Forall_forall in Hall. exact (Hall t Hin Ht).
Qed.

Lemma ParseLine_returns_iff_no_String_witness :
  (exists f', ParseLine "a = -b" 8 (Lexer "main.vs") = Done tt f') <->
  Forall (fun t => Type_ t <> TokenType.String)
         (appended (Lexer "main.vs")
            (frame_of (ParseLine "a = -b" 8 (Lexer "main.vs")))).
Proof.
  apply (ParseLine_returns_iff_no_String "a = -b" 8 (Lexer "main.vs"));
    reflexivity.
Defined.

(** ** The order of the token sequence *)

Lemma StronglySorted_app {A} (R : A -> A -> Prop) (l1 l2 : list A) :
  StronglySorted R l1 -> StronglySorted R l2 ->
  (forall x y, In x l1 -> In y l2 -> R x y) ->
  StronglySorted R (l1 ++ l2).
Proof.
  induction l1 as [|a l1 IH]; intros S1 S2 H; simpl; [exact S2|].
  inversion S1 as [|? ? S1' F1]; subst. constructor.
  - apply IH; auto. intros x y Hx Hy. apply H; [right|]; assumption.
  - apply Forall_app. split; [exact F1|].
    apply Forall_forall. intros y Hy. apply H; [left; reflexivity | exact Hy].
Qed.

Lemma same_row_sorted row (ts : list Token) :
  Forall (fun t => Row (Pos t) = row) ts ->
  StronglySorted Z.le (columns ts) ->
  StronglySorted (fun t u => position_le (Pos t) (Pos u)) ts.
Proof.
  induction ts as [|t ts IH]; intros Hrow Hs; [constructor|].
  inversion Hrow as [|? ? Rt Rts]; subst.
  simpl in Hs. inversion Hs as [|? ? Hs' Hle]; subst.
  constructor; [apply IH; assumption|].
  unfold columns in Hle. rewrite Forall_map in Hle.
  rewrite Forall_forall in *. intros u Hu. right.
  split; [rewrite (Rts u Hu); reflexivity | apply Hle; exact Hu].
Qed.

Lemma ParseLines_sorted fuel : forall rest f,
  0 <= m_Row f ->
  m_Row f + Z.of_nat (List.length rest) <= UINT32_MAX ->
  Forall (fun line => size line < UINT32_MAX) rest ->
  StronglySorted (fun t u => position_le (Pos t) (Pos u)) (m_Tokens f) ->
  Forall (fun t => Row (Pos t) < m_Row f) (m_Tokens f) ->
  StronglySorted (fun t u => position_le (Pos t) (Pos u))
                 (m_Tokens (frame_of (ParseLines fuel rest f))).
Proof.
  induction rest as [|line rest IH]; intros f Hrow Hlen Hsz Hs Hold;
    [exact Hs|].
  inversion Hsz as [|? ? Hline Hrest]; subst.
  cbn [ParseLines]. unfold bind.
  destruct (ParseLine_chain line fuel f Hline) as [c' [L _]].
  pose proof (ParseLine_safe line fuel f Hline) as [_ [_ [[new [T _]] _]]].
  rewrite (appended_app f _ new T) in L.
  pose proof (lexemes_sorted _ _ _ _ _ _ L) as Scol.
  apply lexemes_tokens in L. destruct L as [_ Fnew].
  assert (Rnew : Forall (fun t => Row (Pos t) = m_Row f) new)
    by (eapply Forall_impl; [|exact Fnew]; intros t [_ [R _]]; exact R).
  assert (Sall : StronglySorted (fun t u => position_le (Pos t) (Pos u))
                                (m_Tokens f ++ new)).
  { apply StronglySorted_app; [exact Hs | |].
    - apply (same_row_sorted (m_Row f)); assumption.
    - intros x y Hx Hy. left.
      rewrite Forall_forall in Hold, Rnew.
      rewrite (Rnew y Hy). apply Hold. exact Hx. }
  pose proof (ParseLine_done line fuel f) as Hdone.
  destruct (ParseLine line fuel f) as [[] g|g]; simpl in T;
    [|simpl; rewrite T; exact Sall].
  destruct (Hdone g eq_refl) as [Hr _].
  simpl List.length in Hlen.
  rewrite wrap32_small in Hr by lia.
  apply IH; try assumption; try lia.
  - rewrite T. exact Sall.
  - rewrite T, Hr. apply Forall_app. split.
    + eapply Forall_impl; [|exact Hold]. intros t Ht. simpl in Ht. lia.
    + eapply Forall_impl; [|exact Rnew]. intros t Ht. simpl in Ht. lia.
Qed.

(** The token sequence that the scan of a file builds is in the order of
    the source: by row, and within a row by column; this holds also when
    the scan of some line does not return. *)
Theorem tokens_in_source_order fuel file lines :
  Z.of_nat (List.length lines) <= UINT32_MAX ->
  Forall (fun line => size line < UINT32_MAX) lines ->
  StronglySorted (fun t u => position_le (Pos t) (Pos u))
                 (m_Tokens (frame_of (ParseLines fuel lines (Lexer file)))).
Proof.
  intros Hlen Hsz.
  apply ParseLines_sorted; simpl; try assumption; try lia; constructor.
Qed.

Lemma tokens_in_source_order_witness :
  StronglySorted (fun t u => position_le (Pos t) (Pos u))
    (m_Tokens (frame_of (ParseLines 12 ["fn f() {"; "  return 1;"; "}"]
                                    (Lexer "main.vs")))).
Proof.
  apply (tokens_in_source_order 12 "main.vs"
           ["fn f() {"; "  return 1;"; "}"]);
    [vm_compute; discriminate | repeat constructor].
Defined.

(** ** The columns of the positions *)


Lemma column_in_bound line col : column_in line col -> 0 <= col <= size line.
Proof. unfold column_in, size. intros [H|[H _]]; lia. Qed.



